(** * scripts/ai_review.js: the review pipeline, embedded and verified

    The script walks the [src] tree, sends every JavaScript file to a
    text-generation service, and writes one Markdown report.  This file
    embeds the script in Rocq:

    - [JSString]: JavaScript strings as sequences of UTF-16 code units,
      with the String.prototype methods the script calls;
    - [Regex]: a backtracking matcher in the priority order of the
      ECMAScript semantics, and the script's [tableRegex];
    - [Node]: the effects of the script (environment, file system,
      service, console, exit) as a trace-and-exception monad over an
      immutable description of the outside world;
    - [Review]: [analyzeFile], [walk], [main] and the top-level handler,
      function by function;
    - the properties of the pipeline. *)

From Stdlib Require Import Ascii String.
From Stdlib Require Import List NArith ZArith Bool Lia.
Import ListNotations.

Set Implicit Arguments.

(* ================================================================== *)
(** ** JavaScript strings *)

Module JSString.

(** A JavaScript string is a sequence of 16-bit code units. *)
Definition code_unit := N.
Definition jsstring := list code_unit.

(** *** Literals

    String literals of the script are written here as Rocq string
    literals, whose characters are the bytes of the UTF-8 source text;
    [js] decodes them to the code units the JavaScript engine holds. *)

Fixpoint code_points (bs : list N) : list N :=
  match bs with
  | [] => []
  | b0 :: r0 =>
    if (b0 <? 128)%N then b0 :: code_points r0
    else
      match r0 with
      | [] => []
      | b1 :: r1 =>
        if (b0 <? 224)%N
        then ((b0 mod 32) * 64 + b1 mod 64)%N :: code_points r1
        else
          match r1 with
          | [] => []
          | b2 :: r2 =>
            if (b0 <? 240)%N
            then ((b0 mod 16) * 4096 + (b1 mod 64) * 64 + b2 mod 64)%N
                   :: code_points r2
            else
              match r2 with
              | [] => []
              | b3 :: r3 =>
                ((b0 mod 8) * 262144 + (b1 mod 64) * 4096
                 + (b2 mod 64) * 64 + b3 mod 64)%N :: code_points r3
              end
          end
      end
  end.

Definition utf16_units (cp : N) : list code_unit :=
  if (cp <? 65536)%N then [cp]
  else let v := (cp - 65536)%N in
       [(55296 + v / 1024)%N; (56320 + v mod 1024)%N].

Definition js (s : string) : jsstring :=
  flat_map utf16_units (code_points (map N_of_ascii (list_ascii_of_string s))).

Definition LF : code_unit := 10%N.       (* \n *)
Definition PIPE : code_unit := 124%N.    (* | *)
Definition DQUOTE : code_unit := 34%N.   (* the double quote *)

(** *** Equality of strings *)

Fixpoint str_eqb (a b : jsstring) : bool :=
  match a, b with
  | [], [] => true
  | x :: a', y :: b' => (x =? y)%N && str_eqb a' b'
  | _, _ => false
  end.

(** *** String.prototype.startsWith / endsWith / indexOf / substring *)

Fixpoint startsWith (s needle : jsstring) : bool :=
  match needle, s with
  | [], _ => true
  | y :: needle', x :: s' => (x =? y)%N && startsWith s' needle'
  | _ :: _, [] => false
  end.

(** [s.endsWith(suffix)]: the last [length suffix] code units of [s]
    are compared with [suffix]; a longer [suffix] gives false. *)
Definition endsWith (s suffix : jsstring) : bool :=
  let n := length s in
  let m := length suffix in
  if (m <=? n)%nat then str_eqb (skipn (n - m) s) suffix else false.

(** [s.indexOf(needle)]: the least index at which [needle] occurs, -1
    when there is none. *)
Fixpoint indexOf_from (s needle : jsstring) (i : Z) : Z :=
  if startsWith s needle then i
  else match s with
       | [] => (-1)%Z
       | _ :: s' => indexOf_from s' needle (i + 1)%Z
       end.

Definition indexOf (s needle : jsstring) : Z := indexOf_from s needle 0%Z.

(** [s.substring(start)]: [start] is clamped to [0 .. length s]. *)
Definition substring (s : jsstring) (start : Z) : jsstring :=
  skipn (Z.to_nat (Z.max 0 start)) s.

(** *** String.prototype.trim

    White space and line terminators of ECMAScript: TAB, LF, VT, FF, CR,
    SP, NBSP, U+1680, U+2000..U+200A, LS, PS, U+202F, U+205F, U+3000 and
    the byte order mark. *)
Definition isWhiteSpace (c : code_unit) : bool :=
  ((9 <=? c) && (c <=? 13) || (c =? 32) || (c =? 160) || (c =? 5760)
   || (8192 <=? c) && (c <=? 8202) || (c =? 8232) || (c =? 8233)
   || (c =? 8239) || (c =? 8287) || (c =? 12288) || (c =? 65279))%N.

Fixpoint trimStart (s : jsstring) : jsstring :=
  match s with
  | [] => []
  | c :: s' => if isWhiteSpace c then trimStart s' else s
  end.

Definition trimEnd (s : jsstring) : jsstring := rev (trimStart (rev s)).

Definition trim (s : jsstring) : jsstring := trimEnd (trimStart s).

(** *** Array.prototype.join on an array of strings *)

Fixpoint join (sep : jsstring) (parts : list jsstring) : jsstring :=
  match parts with
  | [] => []
  | [p] => p
  | p :: rest => p ++ sep ++ join sep rest
  end.

End JSString.

Import JSString.

(* ================================================================== *)
(** ** Regular expressions

    A backtracking matcher for the fragment of ECMAScript patterns the
    script uses.  [ends r s] lists, in the priority order in which the
    engine's backtracking explores them, the inputs that remain after a
    match of [r] at the start of [s]; the engine takes the first match
    whose continuation succeeds, hence the first element of the list for
    a whole pattern.  Capture groups only record positions and do not
    change which text [match[0]] is, so a group is its body. *)

Module Regex.

Inductive regex : Type :=
| Char (c : code_unit)        (* a pattern character *)
| Dot                         (* [.] under the [s] flag: any code unit *)
| Seq (r1 r2 : regex)         (* concatenation *)
| Star (r : regex)            (* [r*], greedy *)
| LazyStar (r : regex).       (* [r*?] *)

(** [r+] is [r{1,}]: one compulsory iteration, then [r*]. *)
Definition Plus (r : regex) : regex := Seq r (Star r).

Section Repeat.

Variable body : jsstring -> list jsstring.

(** One more iteration of the body, rejected when it consumed nothing
    (the empty check of RepeatMatcher), then the loop again. *)
Definition again (loop : jsstring -> list jsstring) (s : jsstring)
  : list jsstring :=
  flat_map (fun s1 => if (length s1 <? length s)%nat then loop s1 else [])
           (body s).

(** Greedy: iterate first, stop as the last resort.  The counter
    bounds the iterations by the length of the input, which every
    iteration shortens. *)
Fixpoint greedy (n : nat) (s : jsstring) : list jsstring :=
  match n with
  | O => []
  | S n' => again (greedy n') s
  end ++ [s].

(** Lazy: stop first, iterate as the last resort. *)
Fixpoint lazy_ (n : nat) (s : jsstring) : list jsstring :=
  s :: match n with
       | O => []
       | S n' => again (lazy_ n') s
       end.

End Repeat.

Fixpoint ends (r : regex) (s : jsstring) : list jsstring :=
  match r with
  | Char c =>
      match s with
      | x :: s' => if (x =? c)%N then [s'] else []
      | [] => []
      end
  | Dot =>
      match s with
      | _ :: s' => [s']
      | [] => []
      end
  | Seq r1 r2 => flat_map (ends r2) (ends r1 s)
  | Star r1 => greedy (ends r1) (length s) s
  | LazyStar r1 => lazy_ (ends r1) (length s) s
  end.

(** The text matched when [rest] is what remains of [s]. *)
Definition matched (s rest : jsstring) : jsstring :=
  firstn (length s - length rest) s.

(** [s.match(r)] for a pattern without the [g] and [y] flags: the match
    is tried at index 0, 1, ... and the first index with a match wins;
    the result is [match[0]], or [None] for [null]. *)
Fixpoint str_match (r : regex) (s : jsstring) : option jsstring :=
  match ends r s with
  | rest :: _ => Some (matched s rest)
  | [] =>
      match s with
      | [] => None
      | _ :: s' => str_match r s'
      end
  end.

End Regex.

Import Regex.

(* ================================================================== *)
(** ** The outside world and the effects of the script *)

Module Node.

(** A thrown [Error]; the script only reads [err.message]. *)
Record Error : Type := mkError { message : jsstring }.

(** The tree under a directory, as [readdirSync] and [statSync] show it:
    a directory lists its entries in the order [readdirSync] returns
    them; [LockedDir] is a directory whose listing fails; [Broken] is an
    entry on which [statSync] throws, such as a dangling symbolic link
    or an entry of a directory that cannot be searched; everything else
    that is not a directory is a [File]. *)
#[local] Set Warnings "-register-all".

Inductive node : Type :=
| File
| Dir (entries : list (jsstring * node))
| LockedDir (err : Error)
| Broken (err : Error).

(** [stat.isDirectory()], for the entries [statSync] returns on. *)
Definition isDirectory (n : node) : bool :=
  match n with
  | File | Broken _ => false
  | Dir _ | LockedDir _ => true
  end.

(** What the script can observe of its surroundings.  Nothing the script
    writes is read back by it, so the description is immutable. *)
Record World : Type := mkWorld {
  (** [process.env.GEMINI_API_KEY] once dotenv has run; [None] is
      [undefined]. *)
  GEMINI_API_KEY : option jsstring;
  (** the entry [src] of the working directory, if any *)
  src_tree : option node;
  (** [fs.readFileSync(p, "utf-8")]: the text, or the error thrown *)
  file_text : jsstring -> Error + jsstring;
  (** [client.models.generateContent({model, contents})]: the [text] of
      the response, which is a string or [undefined] ([None]), for a
      response without text, or the error the call rejects with *)
  generate : jsstring -> jsstring -> Error + option jsstring;
  (** [fs.existsSync("reports")] *)
  reports_exists : bool;
  (** the error of [fs.mkdirSync("reports")], if it fails *)
  mkdir_error : option Error;
  (** the error of [fs.writeFileSync] on the report, if it fails *)
  write_error : option Error
}.

Inductive event : Type :=
| ReadDir (dir : jsstring)
| Stat (path : jsstring)
| ReadFile (path : jsstring)
| Exists (path : jsstring)
| MkDir (path : jsstring)
| WriteFile (path data : jsstring)
| GenerateContent (model contents : jsstring)
| ConsoleError (label : jsstring) (detail : jsstring + Error)
| Exit (code : Z).

(** A computation yields the trace of its effects, in order, and either
    a value or the error it threw. *)
Definition M (A : Type) : Type := list event * (Error + A).

Definition ret {A} (a : A) : M A := ([], inr a).

Definition throw {A} (e : Error) : M A := ([], inl e).

Definition bind {A B} (m : M A) (k : A -> M B) : M B :=
  match m with
  | (t1, inl e) => (t1, inl e)
  | (t1, inr a) => let (t2, r) := k a in (t1 ++ t2, r)
  end.

Definition emit (e : event) : M unit := ([e], inr tt).

Definition lift {A} (r : Error + A) : M A := ([], r).

Declare Scope node_scope.
Delimit Scope node_scope with node.
Notation "x <- m ;; k" := (bind m (fun x => k))
  (at level 61, m at next level, right associativity) : node_scope.
Notation "m ;; k" := (bind m (fun _ => k))
  (at level 61, right associativity) : node_scope.

Local Open Scope node_scope.

Arguments bind : simpl never.
Arguments emit : simpl never.
Arguments ret : simpl never.
Arguments throw : simpl never.

(** [for (const x of xs) body], threading the variables the body
    assigns. *)
Fixpoint for_of {A S} (xs : list A) (body : A -> S -> M S) (s : S) : M S :=
  match xs with
  | [] => ret s
  | x :: rest => s' <- body x s ;; for_of rest body s'
  end.

(** JavaScript truthiness of a string-or-undefined value. *)
Definition truthy (v : option jsstring) : bool :=
  match v with
  | None | Some [] => false
  | Some (_ :: _) => true
  end.

(** [path.join(dir, f)] for a normalized [dir] and an entry name [f]. *)
Definition path_join (dir f : jsstring) : jsstring := dir ++ js "/" ++ f.

(** [fs.statSync(path).isDirectory()], with [n] what is found at
    [path]. *)
Definition statSync_isDirectory (path : jsstring) (n : node) : M bool :=
  emit (Stat path) ;;
  match n with
  | Broken err => throw err
  | File | Dir _ | LockedDir _ => ret (isDirectory n)
  end.

(** A value interpolated in a template literal. *)
Definition interpolate (v : option jsstring) : jsstring :=
  match v with
  | Some text => text
  | None => js "undefined"
  end.

Section Primitives.

Variable w : World.

Definition readFileSync (p : jsstring) : M jsstring :=
  emit (ReadFile p) ;; lift (file_text w p).

Definition generateContent (model contents : jsstring) : M (option jsstring) :=
  emit (GenerateContent model contents) ;; lift (generate w model contents).

Definition existsSync_reports : M bool :=
  emit (Exists (js "reports")) ;; ret (reports_exists w).

Definition mkdirSync_reports : M unit :=
  emit (MkDir (js "reports")) ;;
  match mkdir_error w with
  | Some e => throw e
  | None => ret tt
  end.

Definition writeFileSync_report (p data : jsstring) : M unit :=
  emit (WriteFile p data) ;;
  match write_error w with
  | Some e => throw e
  | None => ret tt
  end.

End Primitives.

End Node.

Import Node.
Local Open Scope node_scope.

(* ================================================================== *)
(** ** The script *)

Module Review.

(** *** analyzeFile *)

(** The template literal of [analyzeFile] with [code] interpolated,
    before [.trim()]. *)
Definition prompt_template (code : jsstring) : jsstring :=
  [LF]
  ++ js "Você é um revisor de código que analisa boas práticas, legibilidade, segurança e estrutura do código JavaScript." ++ [LF]
  ++ js "Analise o código abaixo e forneça comentários:" ++ [LF]
  ++ [LF]
  ++ js "1.  **Pontos Fortes** e **Sugestões de Melhoria** (em texto corrido e bem detalhado)." ++ [LF]
  ++ js "2.  **AO FINAL DE SUA REVISÃO DETALHADA,** crie uma **tabela de resumo** no formato Markdown com duas colunas: **"
  ++ [DQUOTE] ++ js "Problema Principal" ++ [DQUOTE] ++ js "** e **"
  ++ [DQUOTE] ++ js "Local/Linha Sugerida" ++ [DQUOTE] ++ js "**. " ++ [LF]
  ++ js "    * Se não houver problemas graves, a tabela deve ter uma única linha dizendo "
  ++ [DQUOTE] ++ js "Nenhum problema grave encontrado" ++ [DQUOTE]
  ++ js " na coluna " ++ [DQUOTE] ++ js "Problema Principal" ++ [DQUOTE]
  ++ js "." ++ [LF]
  ++ [LF]
  ++ js "Código:" ++ [LF]
  ++ js "```js" ++ [LF]
  ++ code ++ [LF]
  ++ js "```" ++ [LF]
  ++ js "  ".

Definition model_name : jsstring := js "gemini-2.5-flash".

(** The object [analyzeFile] resolves to. *)
Record Feedback : Type := mkFeedback {
  full_feedback : option jsstring;
  filePath : jsstring
}.

Definition analyzeFile (w : World) (filePath : jsstring) : M Feedback :=
  code <- readFileSync w filePath ;;
  let prompt := trim (prompt_template code) in
  if negb (truthy (GEMINI_API_KEY w)) then
    throw (mkError (js "403 PERMISSION_DENIED: API Key não está definida. A chave deve ser injetada pelo GitHub Secrets."))
  else
    text <- generateContent w model_name prompt ;;
    ret (mkFeedback text filePath).

(** *** walk *)

Definition excluded (f : jsstring) : bool :=
  str_eqb f (js "node_modules") || str_eqb f (js "tests")
  || str_eqb f (js "reports").

Section WalkLoop.

(** The [for ... of files] loop of [walk(dir)]; [walk] is the
    function itself, for the recursive call, and every entry [f]
    comes with the tree [child] that [statSync] finds at it. *)
Variable walk : jsstring -> node -> list jsstring -> M (list jsstring).
Variable dir : jsstring.

Fixpoint walk_loop (files : list (jsstring * node)) (jsFiles : list jsstring)
  : M (list jsstring) :=
  match files with
  | [] => ret jsFiles
  | (f, child) :: rest =>
      let full := path_join dir f in
      stat_isDirectory <- statSync_isDirectory full child ;;
      if stat_isDirectory then
        if excluded f then walk_loop rest jsFiles
        else jsFiles' <- walk full child jsFiles ;; walk_loop rest jsFiles'
      else if endsWith full (js ".js") then walk_loop rest (jsFiles ++ [full])
      else walk_loop rest jsFiles
  end.

End WalkLoop.

(** [walk(dir)], with [d] the tree at [dir] and [jsFiles] the array the
    closure pushes to.  [readdirSync] throws on anything but a readable
    directory. *)
Fixpoint walk (dir : jsstring) (d : node) (jsFiles : list jsstring)
  : M (list jsstring) :=
  emit (ReadDir dir) ;;
  match d with
  | File => throw (mkError (js "ENOTDIR: not a directory, scandir '" ++ dir ++ js "'"))
  | LockedDir err | Broken err => throw err
  | Dir files => walk_loop walk dir files jsFiles
  end.

(** [walk("src")] from the working directory. *)
Definition walk_src (w : World) (jsFiles : list jsstring) : M (list jsstring) :=
  match src_tree w with
  | Some d => walk (js "src") d jsFiles
  | None =>
      emit (ReadDir (js "src")) ;;
      throw (mkError (js "ENOENT: no such file or directory, scandir 'src'"))
  end.

(** *** main *)

Definition tableNameHeader : jsstring := js "Problema Principal".
Definition tableStartMarker : jsstring := js "| " ++ tableNameHeader.

(** [/(\|.*?\n)+\|.*?/s] *)
Definition tableRegex : regex :=
  Seq (Plus (Seq (Char PIPE) (Seq (LazyStar Dot) (Char LF))))
      (Seq (Char PIPE) (LazyStar Dot)).

(** The two variables the loop of [main] assigns. *)
Record Acc : Type := mkAcc {
  report : jsstring;
  resumoProblemas : list jsstring
}.

(** What [full_feedback.indexOf] throws when [full_feedback] is
    [undefined]. *)
Definition indexOf_of_undefined : Error :=
  mkError (js "Cannot read properties of undefined (reading 'indexOf')").

(** The statements of the [try] block after [analyzeFile] has
    resolved: the two variables as they are when the block ends or
    throws, and the error thrown, if any.  The section is appended
    first; the call of [indexOf] on a text that is [undefined] throws
    after it. *)
Definition record_feedback (filePath : jsstring)
           (full_feedback : option jsstring) (a : Acc) : Acc * option Error :=
  let report1 :=
    report a ++ js "## Arquivo: " ++ filePath ++ [LF; LF]
           ++ interpolate full_feedback ++ [LF; LF] in
  match full_feedback with
  | None => (mkAcc report1 (resumoProblemas a), Some indexOf_of_undefined)
  | Some text =>
      (let tableStart := indexOf text tableStartMarker in
       if negb (tableStart =? -1)%Z then
         let tableContent := substring text tableStart in
         match str_match tableRegex tableContent with
         | Some ((_ :: _) as match0) =>
             mkAcc report1
                   (resumoProblemas a
                    ++ [js "### Resumo do Arquivo: `" ++ filePath ++ js "`" ++ [LF]
                        ++ trim match0 ++ [LF]])
         | _ => mkAcc report1 (resumoProblemas a)
         end
       else mkAcc report1 (resumoProblemas a),
       None)
  end.

(** The [catch] block. *)
Definition record_error (filePath : jsstring) (err : Error) (a : Acc) : Acc :=
  mkAcc (report a ++ js "## Arquivo: " ++ filePath ++ [LF; LF]
                  ++ js "**Erro ao analisar**: " ++ message err ++ [LF; LF])
        (resumoProblemas a).

(** One turn of the loop: [try { ... } catch (err) { ... }].  The
    [catch] block runs on the variables as the [try] block left them,
    whether [analyzeFile] threw or a later statement did. *)
Definition review_file (w : World) (filePath : jsstring) (a : Acc) : M Acc :=
  match analyzeFile w filePath with
  | (t, inl err) => (t, inr (record_error filePath err a))
  | (t, inr fb) =>
      match record_feedback filePath (full_feedback fb) a with
      | (a', None) => (t, inr a')
      | (a', Some err) => (t, inr (record_error filePath err a'))
      end
  end.

Definition tabelaGeral (resumoProblemas : list jsstring) : jsstring :=
  let tabelaGeral := js "## 📊 Resumo de Problemas por Arquivo" ++ [LF; LF] in
  if (0 <? length resumoProblemas)%nat then
    let tabelaGeral :=
      tabelaGeral ++ js "Este é o resumo de problemas extraídos automaticamente do feedback detalhado de cada arquivo. Use-o para priorizar correções:" ++ [LF; LF] in
    tabelaGeral ++ join [LF] resumoProblemas
  else
    tabelaGeral ++ js "Nenhum arquivo JavaScript encontrado para análise ou não foi possível extrair os resumos das tabelas." ++ [LF; LF].

Definition report_path : jsstring := js "reports/ai-code-review.md".

Definition main (w : World) : M unit :=
  let apiKey := GEMINI_API_KEY w in
  if negb (truthy apiKey) then
    throw (mkError (js "GEMINI_API_KEY não encontrada. Abortando análise."))
  else
    jsFiles <- walk_src w [] ;;
    present <- existsSync_reports w ;;
    (if negb present then mkdirSync_reports w else ret tt) ;;
    let report0 := js "# Relatório de Revisão AI – Gemini" ++ [LF; LF] in
    a <- for_of jsFiles (review_file w) (mkAcc report0 []) ;;
    let report1 := report a ++ [LF] ++ js "---" ++ [LF; LF] in
    let report2 := report1 ++ tabelaGeral (resumoProblemas a) in
    writeFileSync_report w report_path report2.

(** *** The process

    [main().catch(...)]: a rejection is printed and the process exits
    with status 1; otherwise the process ends with status 0 once [main]
    has resolved.  [err.message || err] prints the error itself when its
    message is empty. *)
Definition program (w : World) : list event * Z :=
  match main w with
  | (t, inr _) => (t, 0%Z)
  | (t, inl err) =>
      let detail :=
        match message err with
        | [] => inr err
        | _ :: _ => inl (message err)
        end in
      (t ++ [ConsoleError (js "Falha fatal na execução do ai_review:") detail;
             Exit 1],
       1%Z)
  end.

End Review.

Import Review.

(* ================================================================== *)
(** ** Vocabulary of the properties *)

(** [needle] occurs in [s]. *)
Definition occurs (needle s : jsstring) : Prop :=
  exists pre post, s = pre ++ needle ++ post.

(** *** File discovery, as the specification words it

    A depth-first walk in the order of the directory listings: an
    excluded directory contributes nothing, any other directory
    contributes what is discovered below it, and an entry that is not a
    directory contributes its path when its name ends with [.js]. *)
Fixpoint discover (dir : jsstring) (d : node) : list jsstring :=
  match d with
  | Dir files =>
      flat_map
        (fun fc =>
           let full := path_join dir (fst fc) in
           if isDirectory (snd fc) then
             if excluded (fst fc) then [] else discover full (snd fc)
           else if endsWith (fst fc) (js ".js") then [full] else [])
        files
  | File | LockedDir _ | Broken _ => []
  end.

(** [statSync] returns on the entry. *)
Definition inspectable (n : node) : bool :=
  match n with
  | Broken _ => false
  | File | Dir _ | LockedDir _ => true
  end.

(** Every directory the walk has to list can be listed, and every
    entry of such a directory can be inspected. *)
Fixpoint listable (d : node) : bool :=
  match d with
  | Dir files =>
      forallb
        (fun fc =>
           inspectable (snd fc)
           && (if isDirectory (snd fc)
               then excluded (fst fc) || listable (snd fc)
               else true))
        files
  | File | LockedDir _ | Broken _ => false
  end.

(** [located d chain f]: in the tree [d], the directories named by
    [chain], entered one after the other, lead to an entry [f] that is
    not a directory. *)
Inductive located : node -> list jsstring -> jsstring -> Prop :=
| located_here files f child :
    In (f, child) files -> isDirectory child = false ->
    located (Dir files) [] f
| located_below files g child chain f :
    In (g, child) files -> located child chain f ->
    located (Dir files) (g :: chain) f.

(** The path of the entry [f] below [dir] through [chain]. *)
Definition path_of (dir : jsstring) (chain : list jsstring) (f : jsstring)
  : jsstring :=
  fold_left path_join (chain ++ [f]) dir.

(** The tree with every excluded directory replaced by one whose
    listing throws. *)
Fixpoint seal (d : node) : node :=
  match d with
  | Dir files =>
      Dir (map (fun fc =>
                  (fst fc,
                   if isDirectory (snd fc) && excluded (fst fc)
                   then LockedDir (mkError [])
                   else seal (snd fc)))
               files)
  | File => File
  | LockedDir err => LockedDir err
  | Broken err => Broken err
  end.

(** *** Sections and summary entries of the report *)

(** What reviewing the file at [p] comes to: the feedback text
    [analyzeFile] resolves with, [undefined] included, or the error it
    throws. *)
Definition outcome (w : World) (p : jsstring) : Error + option jsstring :=
  match snd (analyzeFile w p) with
  | inl err => inl err
  | inr fb => inr (full_feedback fb)
  end.

Definition success_section (p feedback : jsstring) : jsstring :=
  js "## Arquivo: " ++ p ++ [LF; LF] ++ feedback ++ [LF; LF].

Definition failure_section (p msg : jsstring) : jsstring :=
  js "## Arquivo: " ++ p ++ [LF; LF]
  ++ js "**Erro ao analisar**: " ++ msg ++ [LF; LF].

(** What one turn of the loop appends to the report for [p]: one
    section, but for a response without text, where the success
    section, written first, is followed by the failure section of the
    error that [indexOf] throws. *)
Definition section_for (w : World) (p : jsstring) : jsstring :=
  match outcome w p with
  | inr (Some feedback) => success_section p feedback
  | inr None =>
      success_section p (js "undefined")
      ++ failure_section p (message indexOf_of_undefined)
  | inl err => failure_section p (message err)
  end.

(** The summary entries the [try] block pushes for a feedback text:
    none or one. *)
Definition extracted (p feedback : jsstring) : list jsstring :=
  resumoProblemas (fst (record_feedback p (Some feedback) (mkAcc [] []))).

Definition entries_for (w : World) (p : jsstring) : list jsstring :=
  match outcome w p with
  | inr (Some feedback) => extracted p feedback
  | inr None | inl _ => []
  end.

Definition title : jsstring := js "# Relatório de Revisão AI – Gemini" ++ [LF; LF].

Definition rule : jsstring := [LF] ++ js "---" ++ [LF; LF].

Definition summary_heading : jsstring :=
  js "## 📊 Resumo de Problemas por Arquivo" ++ [LF; LF].

Definition summary_intro : jsstring :=
  js "Este é o resumo de problemas extraídos automaticamente do feedback detalhado de cada arquivo. Use-o para priorizar correções:" ++ [LF; LF].

Definition summary_placeholder : jsstring :=
  js "Nenhum arquivo JavaScript encontrado para análise ou não foi possível extrair os resumos das tabelas." ++ [LF; LF].

Definition subheading (p : jsstring) : jsstring :=
  js "### Resumo do Arquivo: `" ++ p ++ js "`" ++ [LF].

(** The report of a run over [files]. *)
Definition report_of (w : World) (files : list jsstring) : jsstring :=
  title ++ flat_map (section_for w) files
        ++ rule ++ tabelaGeral (flat_map (entries_for w) files).

(** The run gets as far as writing the report: the secret is there,
    discovery returns, and the output directory and file can be
    written. *)
Definition writes_report (w : World) : Prop :=
  truthy (GEMINI_API_KEY w) = true /\
  (exists t files, walk_src w [] = (t, inr files)) /\
  (reports_exists w = true \/ mkdir_error w = None) /\
  write_error w = None.

(** The effects of a run between discovery and the write of the
    report. *)
Definition middle (w : World) (files : list jsstring) : list event :=
  Exists (js "reports")
  :: (if reports_exists w then [] else [MkDir (js "reports")])
  ++ flat_map (fun p => fst (analyzeFile w p)) files.

(** *** Sample inputs *)

(** A feedback text that ends with the table the prompt asks for. *)
Definition sample_feedback : jsstring :=
  js "O código é curto e claro." ++ [LF; LF]
  ++ js "| Problema Principal | Local/Linha Sugerida |" ++ [LF]
  ++ js "|---|---|" ++ [LF]
  ++ js "| Nenhum problema grave encontrado | - |" ++ [LF].

(** The same review, its table without the space after the first
    delimiter, and with the column title spelled differently. *)
Definition feedback_no_space : jsstring :=
  js "|Problema Principal|Local/Linha Sugerida|" ++ [LF]
  ++ js "|---|---|" ++ [LF]
  ++ js "|Nenhum problema grave encontrado|-|" ++ [LF].

Definition feedback_other_title : jsstring :=
  js "| Problema principal | Local/Linha Sugerida |" ++ [LF]
  ++ js "|---|---|" ++ [LF]
  ++ js "| Nenhum problema grave encontrado | - |" ++ [LF].

(** A source tree: two files at the top, a test directory, and a
    library directory that holds a dependency cache that cannot even be
    listed. *)
Definition sample_tree : node :=
  Dir [ (js "a.js", File);
        (js "tests", Dir [(js "a.test.js", File)]);
        (js "lib",
         Dir [ (js "b.js", File);
               (js "notes.txt", File);
               (js "node_modules", LockedDir (mkError (js "EACCES"))) ]);
        (js "z.js", File) ].

(** A world in which [src/lib/b.js] cannot be read and the service
    answers every prompt with [sample_feedback]. *)
Definition sample_world : World :=
  {| GEMINI_API_KEY := Some (js "secret");
     src_tree := Some sample_tree;
     file_text := fun p =>
       if str_eqb p (js "src/lib/b.js")
       then inl (mkError (js "EACCES: permission denied"))
       else inr (js "export default 1;");
     generate := fun _ _ => inr (Some sample_feedback);
     reports_exists := false;
     mkdir_error := None;
     write_error := None |}.

(** The same world with the secret unset, with the source tree gone,
    and with a source tree that holds no JavaScript file. *)
Definition world_without_secret : World :=
  {| GEMINI_API_KEY := None;
     src_tree := src_tree sample_world;
     file_text := file_text sample_world;
     generate := generate sample_world;
     reports_exists := false;
     mkdir_error := None;
     write_error := None |}.

Definition world_without_src : World :=
  {| GEMINI_API_KEY := GEMINI_API_KEY sample_world;
     src_tree := None;
     file_text := file_text sample_world;
     generate := generate sample_world;
     reports_exists := false;
     mkdir_error := None;
     write_error := None |}.

Definition world_without_files : World :=
  {| GEMINI_API_KEY := GEMINI_API_KEY sample_world;
     src_tree := Some (Dir [(js "README.md", File); (js "tests", Dir [])]);
     file_text := file_text sample_world;
     generate := generate sample_world;
     reports_exists := true;
     mkdir_error := None;
     write_error := None |}.

(** A world with two files, in which the service answers the prompt
    for [src/a.js] with a response that has no text. *)
Definition world_with_empty_response : World :=
  {| GEMINI_API_KEY := Some (js "secret");
     src_tree := Some (Dir [(js "a.js", File); (js "b.js", File)]);
     file_text := fun p =>
       if str_eqb p (js "src/a.js") then inr (js "let a;") else inr (js "let b;");
     generate := fun _ contents =>
       if (indexOf contents (js "let a;") =? -1)%Z
       then inr (Some (js "Sem problemas."))
       else inr None;
     reports_exists := true;
     mkdir_error := None;
     write_error := None |}.

(** A feedback text whose table has a header line without the marker,
    while the marker stands in the prose before it. *)
Definition header_without_marker : jsstring :=
  js "|Problema Principal|Local/Linha Sugerida|".

Definition feedback_marker_in_prose : jsstring :=
  js "A coluna | Problema Principal resume cada ponto." ++ [LF]
  ++ header_without_marker ++ [LF]
  ++ js "|---|---|" ++ [LF]
  ++ js "|eval|3|" ++ [LF].

(** A world with one file, reviewed with [feedback_marker_in_prose]. *)
Definition world_with_marker_in_prose : World :=
  {| GEMINI_API_KEY := Some (js "secret");
     src_tree := Some (Dir [(js "a.js", File)]);
     file_text := fun _ => inr (js "eval(x)");
     generate := fun _ _ => inr (Some feedback_marker_in_prose);
     reports_exists := true;
     mkdir_error := None;
     write_error := None |}.

(** The sample world with an output directory that cannot be created,
    and with a report that cannot be written. *)
Definition world_without_output_dir : World :=
  {| GEMINI_API_KEY := GEMINI_API_KEY sample_world;
     src_tree := src_tree sample_world;
     file_text := file_text sample_world;
     generate := generate sample_world;
     reports_exists := false;
     mkdir_error := Some (mkError (js "EACCES: permission denied, mkdir 'reports'"));
     write_error := None |}.

Definition world_with_full_disk : World :=
  {| GEMINI_API_KEY := GEMINI_API_KEY sample_world;
     src_tree := src_tree sample_world;
     file_text := file_text sample_world;
     generate := generate sample_world;
     reports_exists := true;
     mkdir_error := None;
     write_error := Some (mkError (js "ENOSPC: no space left on device, write")) |}.

(** *** Reading a trace *)

(** The files read, the requests sent to the service and the files
    written, in the order of the trace. *)
Definition reads (t : list event) : list jsstring :=
  flat_map (fun e => match e with ReadFile p => [p] | _ => [] end) t.

Definition calls (t : list event) : list (jsstring * jsstring) :=
  flat_map (fun e => match e with
                     | GenerateContent model contents => [(model, contents)]
                     | _ => []
                     end) t.

Definition writes (t : list event) : list (jsstring * jsstring) :=
  flat_map (fun e => match e with WriteFile p data => [(p, data)] | _ => [] end) t.

(** The effects of listing and inspecting directories. *)
Definition is_listing (e : event) : bool :=
  match e with
  | ReadDir _ | Stat _ => true
  | _ => false
  end.

(** The effects of a run up to the report: everything but the error
    stream and the exit. *)
Definition is_work (e : event) : bool :=
  match e with
  | ConsoleError _ _ | Exit _ => false
  | _ => true
  end.

(** The fixed part of the prompt that precedes the code of the file. *)
Definition prompt_head : jsstring :=
  js "Você é um revisor de código que analisa boas práticas, legibilidade, segurança e estrutura do código JavaScript." ++ [LF]
  ++ js "Analise o código abaixo e forneça comentários:" ++ [LF]
  ++ [LF]
  ++ js "1.  **Pontos Fortes** e **Sugestões de Melhoria** (em texto corrido e bem detalhado)." ++ [LF]
  ++ js "2.  **AO FINAL DE SUA REVISÃO DETALHADA,** crie uma **tabela de resumo** no formato Markdown com duas colunas: **"
  ++ [DQUOTE] ++ js "Problema Principal" ++ [DQUOTE] ++ js "** e **"
  ++ [DQUOTE] ++ js "Local/Linha Sugerida" ++ [DQUOTE] ++ js "**. " ++ [LF]
  ++ js "    * Se não houver problemas graves, a tabela deve ter uma única linha dizendo "
  ++ [DQUOTE] ++ js "Nenhum problema grave encontrado" ++ [DQUOTE]
  ++ js " na coluna " ++ [DQUOTE] ++ js "Problema Principal" ++ [DQUOTE]
  ++ js "." ++ [LF]
  ++ [LF]
  ++ js "Código:" ++ [LF]
  ++ js "```js" ++ [LF].

(** *** Trees as a file system has them *)

Definition SLASH : code_unit := 47%N.

Definition slash_free (f : jsstring) : bool :=
  forallb (fun c => negb (c =? SLASH)%N) f.

Fixpoint distinct (l : list jsstring) : bool :=
  match l with
  | [] => true
  | x :: rest => negb (existsb (str_eqb x) rest) && distinct rest
  end.

(** No entry name holds the separator, and no directory holds two
    entries of the same name. *)
Fixpoint well_named (d : node) : bool :=
  match d with
  | Dir files =>
      forallb (fun fc => slash_free (fst fc) && well_named (snd fc)) files
      && distinct (map fst files)
  | File | LockedDir _ | Broken _ => true
  end.

(** *** Auxiliary definitions for the proofs *)

(** One line of the table in [tableRegex]: [\|.*?\n]. *)
Definition table_row : regex := Seq (Char PIPE) (Seq (LazyStar Dot) (Char LF)).

(** The texts that one or more such lines consume. *)
Definition whole_lines (pre : jsstring) : Prop :=
  exists x, pre = PIPE :: x ++ [LF].

(** [t] begins with the delimiter. *)
Definition opens_row (t : jsstring) : bool :=
  match t with
  | c :: _ => (c =? PIPE)%N
  | [] => false
  end.

(** The suffixes of a text, longest first. *)
Fixpoint tails (s : jsstring) : list jsstring :=
  s :: match s with
       | [] => []
       | _ :: s' => tails s'
       end.

(** What follows each line break of a text, in order. *)
Fixpoint after_LF (s : jsstring) : list jsstring :=
  match s with
  | [] => []
  | c :: s' => (if (c =? LF)%N then [s'] else []) ++ after_LF s'
  end.

(** What follows the last line break of [s] that a delimiter follows:
    the last line of [s] that begins with the delimiter and is not its
    first line, with all that comes after it. *)
Fixpoint last_open (s : jsstring) : option jsstring :=
  match s with
  | [] => None
  | c :: s' =>
      match last_open s' with
      | Some t => Some t
      | None => if (c =? LF)%N && opens_row s' then Some s' else None
      end
  end.

(** The last line of [s] that begins with the delimiter, with all that
    comes after it, when [s] itself begins with the delimiter. *)
Definition final_row (s : jsstring) : jsstring :=
  match last_open s with
  | Some t => t
  | None => s
  end.

(** The first answer of [h] along a list. *)
Fixpoint first_some {A B} (h : A -> option B) (l : list A) : option B :=
  match l with
  | [] => None
  | a :: l' =>
      match h a with
      | Some b => Some b
      | None => first_some h l'
      end
  end.

(** Induction on trees, with the hypothesis on every entry of a
    directory. *)
Section NodeInduction.

Variable P : node -> Prop.
Hypothesis HFile : P File.
Hypothesis HLocked : forall err, P (LockedDir err).
Hypothesis HBroken : forall err, P (Broken err).
Hypothesis HDir :
  forall files, Forall (fun fc => P (snd fc)) files -> P (Dir files).

Fixpoint node_nested_ind (d : node) : P d :=
  match d with
  | File => HFile
  | LockedDir err => HLocked err
  | Broken err => HBroken err
  | Dir files =>
      HDir
        ((fix all (l : list (jsstring * node))
            : Forall (fun fc => P (snd fc)) l :=
            match l with
            | [] => Forall_nil _
            | fc :: l' => Forall_cons fc (node_nested_ind (snd fc)) (all l')
            end) files)
  end.

End NodeInduction.

(* ================================================================== *)
(** ** Facts about strings *)

Section StringFacts.

Lemma str_eqb_eq (a b : jsstring) : str_eqb a b = true <-> a = b.
Proof.
  revert b; induction a as [|x a IH]; intros [|y b]; simpl;
    try (split; [discriminate | congruence]); try tauto.
  rewrite andb_true_iff, N.eqb_eq, IH.
  split; [intros [-> ->]; reflexivity | intros H; inversion H; auto].
Qed.

Lemma str_eqb_refl (a : jsstring) : str_eqb a a = true.
Proof. apply str_eqb_eq; reflexivity. Qed.

Lemma startsWith_iff (s needle : jsstring) :
  startsWith s needle = true <-> exists post, s = needle ++ post.
Proof.
  revert s; induction needle as [|y needle IH]; intros [|x s]; simpl.
  - split; [intros _; exists []; reflexivity | reflexivity].
  - split; [intros _; exists (x :: s); reflexivity | reflexivity].
  - split; [discriminate | intros [post H]; discriminate].
  - rewrite andb_true_iff, N.eqb_eq, IH. split.
    + intros [-> [post ->]]. exists post; reflexivity.
    + intros [post H]. inversion H; subst. split; [reflexivity | eauto].
Qed.

Lemma startsWith_app (needle post : jsstring) :
  startsWith (needle ++ post) needle = true.
Proof. apply startsWith_iff; eauto. Qed.

Lemma indexOf_from_found (s needle : jsstring) (i : Z) :
  (0 <= i)%Z ->
  indexOf_from s needle i <> (-1)%Z ->
  exists pre post,
    s = pre ++ needle ++ post /\
    indexOf_from s needle i = (i + Z.of_nat (length pre))%Z.
Proof.
  revert i; induction s as [|x s IH]; intros i Hi; cbn [indexOf_from].
  - destruct (startsWith [] needle) eqn:E; [|congruence].
    intros _. apply startsWith_iff in E as [post E].
    exists [], post. simpl. split; [exact E | lia].
  - destruct (startsWith (x :: s) needle) eqn:E.
    + intros _. apply startsWith_iff in E as [post E].
      exists [], post. simpl. split; [exact E | lia].
    + intros H. destruct (IH (i + 1)%Z ltac:(lia) H) as (pre & post & Hs & Hi').
      exists (x :: pre), post. simpl. split; [congruence | lia].
Qed.

Lemma indexOf_from_absent (s needle : jsstring) (i : Z) :
  (0 <= i)%Z ->
  (indexOf_from s needle i = (-1)%Z <-> ~ occurs needle s).
Proof.
  intros Hi. split.
  - revert i Hi; induction s as [|x s IH]; intros i Hi; cbn [indexOf_from].
    + destruct (startsWith [] needle) eqn:E; [lia|].
      intros _ (pre & post & H).
      destruct pre; [|discriminate]. simpl in H.
      rewrite H, startsWith_app in E. discriminate.
    + destruct (startsWith (x :: s) needle) eqn:E; [lia|].
      intros H (pre & post & Hs).
      destruct pre as [|y pre]; simpl in Hs.
      * rewrite Hs, startsWith_app in E. discriminate.
      * inversion Hs; subst.
        apply (IH (i + 1)%Z ltac:(lia) H). exists pre, post; reflexivity.
  - intros Hno.
    destruct (Z.eq_dec (indexOf_from s needle i) (-1)) as [E|E]; [exact E|].
    destruct (indexOf_from_found s needle Hi E) as (pre & post & Hs & _).
    exfalso; apply Hno; exists pre, post; exact Hs.
Qed.

Lemma indexOf_absent (s needle : jsstring) :
  indexOf s needle = (-1)%Z <-> ~ occurs needle s.
Proof. apply indexOf_from_absent; lia. Qed.

Lemma endsWith_iff (s suffix : jsstring) :
  endsWith s suffix = true <-> exists pre, s = pre ++ suffix.
Proof.
  unfold endsWith.
  destruct (Nat.leb_spec (length suffix) (length s)) as [Hle|Hlt].
  - rewrite str_eqb_eq. split.
    + set (k := (length s - length suffix)%nat). intros H.
      exists (firstn k s). rewrite <- H. symmetry; apply firstn_skipn.
    + intros [pre ->]. rewrite length_app.
      replace (length pre + length suffix - length suffix)%nat
        with (length pre + 0)%nat by lia.
      rewrite skipn_app, Nat.add_0_r, skipn_all.
      replace (length pre - length pre)%nat with 0%nat by lia.
      reflexivity.
  - split; [discriminate|].
    intros [pre ->]. rewrite length_app in Hlt. lia.
Qed.

(** The extension test of [walk] is made on the joined path; it is a
    test on the entry name, because the separator is not part of the
    extension. *)
Lemma endsWith_path_join (dir f : jsstring) :
  endsWith (path_join dir f) (js ".js") = endsWith f (js ".js").
Proof.
  apply eq_true_iff_eq. rewrite !endsWith_iff. unfold path_join.
  change (js ".js") with [46; 106; 115]%N.
  change (js "/") with [47%N].
  split.
  - intros [pre H].
    apply (f_equal (@rev code_unit)) in H.
    rewrite !rev_app_distr in H. simpl in H.
    destruct (rev f) as [|a [|b [|c r]]] eqn:Ef; simpl in H;
      try (inversion H; fail).
    exists (rev r).
    apply (f_equal (@rev code_unit)) in Ef.
    rewrite rev_involutive in Ef. rewrite Ef.
    inversion H; subst. simpl. rewrite <- !app_assoc. reflexivity.
  - intros [pre ->]. exists (dir ++ [47%N] ++ pre).
    rewrite <- !app_assoc. reflexivity.
Qed.

End StringFacts.

(* ================================================================== *)
(** ** The effect monad *)

Section MonadFacts.

Context {A B : Type}.

Lemma bind_inr (m : M A) (k : A -> M B) t1 a t2 r :
  m = (t1, inr a) -> k a = (t2, r) -> bind m k = (t1 ++ t2, r).
Proof. intros -> H. unfold bind. rewrite H. reflexivity. Qed.

Lemma bind_inl (m : M A) (k : A -> M B) t1 e :
  m = (t1, inl e) -> bind m k = (t1, inl e).
Proof. intros ->. reflexivity. Qed.

Lemma bind_emit (e : event) (k : unit -> M B) :
  bind (emit e) k = (e :: fst (k tt), snd (k tt)).
Proof. unfold bind, emit. destruct (k tt); reflexivity. Qed.

Lemma bind_ret (a : A) (k : A -> M B) : bind (ret a) k = k a.
Proof. unfold bind, ret. destruct (k a); reflexivity. Qed.

(** The two ways a sequence ends. *)
Lemma bind_inv_inr (m : M A) (k : A -> M B) t b :
  bind m k = (t, inr b) ->
  exists t1 a t2, m = (t1, inr a) /\ k a = (t2, inr b) /\ t = t1 ++ t2.
Proof.
  unfold bind. destruct m as [t1 [e|a]]; [discriminate|].
  destruct (k a) as [t2 r] eqn:E. intros H; inversion H; subst.
  exists t1, a, t2. auto.
Qed.

Lemma bind_inv_inl (m : M A) (k : A -> M B) t e :
  bind m k = (t, inl e) ->
  m = (t, inl e) \/
  exists t1 a t2, m = (t1, inr a) /\ k a = (t2, inl e) /\ t = t1 ++ t2.
Proof.
  unfold bind. destruct m as [t1 [e1|a]].
  - intros H; inversion H; subst. left; reflexivity.
  - destruct (k a) as [t2 r] eqn:E. intros H; inversion H; subst.
    right. exists t1, a, t2. auto.
Qed.

End MonadFacts.

Lemma bind_stat_ok {B} (full : jsstring) (child : node) (k : bool -> M B) :
  inspectable child = true ->
  bind (statSync_isDirectory full child) k
  = (Stat full :: fst (k (isDirectory child)), snd (k (isDirectory child))).
Proof.
  intros Hi. unfold statSync_isDirectory, bind, emit, ret.
  destruct child; try discriminate Hi; cbn [isDirectory app];
    match goal with |- context [k ?b] => destruct (k b) end; reflexivity.
Qed.

Lemma bind_stat_broken {B} (full : jsstring) (err : Error) (k : bool -> M B) :
  bind (statSync_isDirectory full (Broken err)) k = ([Stat full], inl err).
Proof. reflexivity. Qed.

Lemma stat_trace (full : jsstring) (child : node) :
  fst (statSync_isDirectory full child) = [Stat full].
Proof. destruct child; reflexivity. Qed.

Lemma inspectable_broken (child : node) :
  inspectable child = false -> exists err, child = Broken err.
Proof. destruct child; try discriminate. eauto. Qed.

(* ================================================================== *)
(** ** File discovery *)


Section Walk.

(** On a tree it can list, [walk] returns, and pushes to [jsFiles]
    the files of the depth-first listing, in that order. *)
Lemma walk_listable (d : node) :
  forall dir acc,
    listable d = true ->
    exists t, walk dir d acc = (t, inr (acc ++ discover dir d)).
Proof.
  induction d as [| err | err | files IH] using node_nested_ind;
    intros dir acc Hl; try discriminate.
  cbn [walk]. rewrite bind_emit.
  cbn [listable discover] in Hl |- *.
  enough (exists t, walk_loop walk dir files acc
                    = (t, inr (acc ++ flat_map
      (fun fc =>
         let full := path_join dir (fst fc) in
         if isDirectory (snd fc) then
           if excluded (fst fc) then [] else discover full (snd fc)
         else if endsWith (fst fc) (js ".js") then [full] else [])
      files))) as [t Ht].
  { rewrite Ht. eexists; reflexivity. }
  revert acc.
  induction IH as [| [f child] rest Hc _ IHrest]; intros acc.
  - eexists. cbn. rewrite app_nil_r. reflexivity.
  - cbn [forallb fst snd] in Hl. apply andb_true_iff in Hl as [Hhd Htl].
    apply andb_true_iff in Hhd as [Hi Hhd].
    specialize (IHrest Htl).
    cbn [flat_map fst snd walk_loop]. rewrite bind_stat_ok by exact Hi.
    destruct (isDirectory child) eqn:Ed.
    + destruct (excluded f) eqn:Ex.
      * destruct (IHrest acc) as [t Ht]. rewrite Ht.
        eexists; reflexivity.
      * simpl in Hhd.
        destruct (Hc (path_join dir f) acc Hhd) as [t1 H1].
        destruct (IHrest (acc ++ discover (path_join dir f) child)) as [t2 H2].
        erewrite bind_inr; [| exact H1 | exact H2].
        eexists. cbn [fst snd]. rewrite <- app_assoc. reflexivity.
    + rewrite endsWith_path_join.
      destruct (endsWith f (js ".js")).
      * destruct (IHrest (acc ++ [path_join dir f])) as [t2 H2].
        rewrite H2. eexists. cbn [fst snd]. rewrite <- app_assoc. reflexivity.
      * destruct (IHrest acc) as [t2 H2]. rewrite H2.
        eexists. cbn [fst snd app]. reflexivity.
Qed.

(** Conversely, when [walk] returns, it has pushed exactly that
    listing. *)
Lemma walk_returns (d : node) :
  forall dir acc t out,
    walk dir d acc = (t, inr out) ->
    out = acc ++ discover dir d /\ listable d = true.
Proof.
  induction d as [| err | err | files IH] using node_nested_ind;
    intros dir acc t out; cbn [walk]; rewrite bind_emit;
    try (intros H; inversion H; fail).
  intros H.
  assert (Hloop : exists t', walk_loop walk dir files acc = (t', inr out)).
  { destruct (walk_loop walk dir files acc) as [t' r'].
    inversion H; subst. eauto. }
  clear H. destruct Hloop as [t' H]. cbn [listable discover].
  revert acc t' H.
  induction IH as [| [f child] rest Hc _ IHrest]; intros acc t' H.
  - cbn in H. inversion H; subst. rewrite app_nil_r. auto.
  - cbn [walk_loop] in H.
    destruct (inspectable child) eqn:Ei;
      [| apply inspectable_broken in Ei as [err ->];
         rewrite bind_stat_broken in H; discriminate H].
    rewrite bind_stat_ok in H by exact Ei.
    cbn [flat_map forallb fst snd]. rewrite Ei. cbn [andb].
    destruct (isDirectory child) eqn:Ed.
    + destruct (excluded f) eqn:Ex.
      * destruct (walk_loop walk dir rest acc) as [t2 r2] eqn:E2.
        inversion H; subst.
        destruct (IHrest _ _ E2) as [-> ->]. auto.
      * destruct (bind _ _) as [t2 r2] eqn:E2 in H.
        inversion H; subst.
        apply bind_inv_inr in E2 as (ta & mid & tb & Ha & Hb & _).
        destruct (Hc _ _ _ _ Ha) as [-> Hlc].
        destruct (IHrest _ _ Hb) as [-> ->].
        cbn [fst snd] in Hlc. rewrite Hlc, <- app_assoc. auto.
    + rewrite endsWith_path_join in H.
      destruct (endsWith f (js ".js")).
      * destruct (walk_loop walk dir rest _) as [t2 r2] eqn:E2.
        inversion H; subst.
        destruct (IHrest _ _ E2) as [-> ->]. rewrite <- app_assoc. auto.
      * destruct (walk_loop walk dir rest _) as [t2 r2] eqn:E2.
        inversion H; subst.
        destruct (IHrest _ _ E2) as [-> ->]. auto.
Qed.

(** What the listing contains: the entries that are not directories,
    carry the extension, and are reached through directories none of
    which has an excluded name. *)
Lemma discover_located (d : node) :
  forall dir p,
    In p (discover dir d) <->
    exists chain f,
      located d chain f /\
      Forall (fun g => excluded g = false) chain /\
      endsWith f (js ".js") = true /\
      p = path_of dir chain f.
Proof.
  induction d as [| err | err | files IH] using node_nested_ind; intros dir p.
  - split; [intros [] | intros (chain & f & H & _); inversion H].
  - split; [intros [] | intros (chain & f & H & _); inversion H].
  - split; [intros [] | intros (chain & f & H & _); inversion H].
  - cbn [discover]. rewrite in_flat_map. rewrite Forall_forall in IH.
    split.
    + intros ([f child] & Hin & Hp). cbn [fst snd] in Hp.
      destruct (isDirectory child) eqn:Ed.
      * destruct (excluded f) eqn:Ex; [destruct Hp|].
        apply (IH _ Hin) in Hp as (chain & f' & Hloc & Hch & Hext & ->).
        exists (f :: chain), f'. repeat split; auto.
        eapply located_below; eauto.
      * destruct (endsWith f (js ".js")) eqn:Eext; [|destruct Hp].
        destruct Hp as [<- | []].
        exists [], f. repeat split; auto.
        eapply located_here; eauto.
    + intros (chain & f & Hloc & Hch & Hext & ->).
      inversion Hloc as [fs f0 child Hin Hd | fs g child ch f0 Hin Hsub]; subst.
      * exists (f, child). split; [exact Hin|]. cbn [fst snd].
        rewrite Hd, Hext. left; reflexivity.
      * exists (g, child). split; [exact Hin|]. cbn [fst snd].
        inversion Hch; subst.
        assert (Hd : isDirectory child = true)
          by (inversion Hsub; reflexivity).
        rewrite Hd. rewrite H1.
        apply (IH _ Hin). exists ch, f. repeat split; auto.
Qed.

Lemma isDirectory_seal (d : node) : isDirectory (seal d) = isDirectory d.
Proof. destruct d; reflexivity. Qed.

(** No descent into an excluded directory: the walk, effects
    included, is the same on the tree in which listing any excluded
    directory would throw. *)
Lemma walk_seal (d : node) :
  forall dir acc, walk dir (seal d) acc = walk dir d acc.
Proof.
  induction d as [| err | err | files IH] using node_nested_ind;
    intros dir acc; try reflexivity.
  cbn [walk seal]. rewrite !bind_emit.
  enough (H : forall acc,
             walk_loop walk dir
               (map (fun fc =>
                       (fst fc,
                        if isDirectory (snd fc) && excluded (fst fc)
                        then LockedDir (mkError [])
                        else seal (snd fc))) files) acc
             = walk_loop walk dir files acc)
    by (rewrite H; reflexivity).
  clear acc.
  induction IH as [| [f child] rest Hc _ IHrest]; intros acc;
    [reflexivity|].
  cbn [map walk_loop fst snd].
  destruct (inspectable child) eqn:Ei;
    [| apply inspectable_broken in Ei as [err ->]; cbn [isDirectory andb seal];
       rewrite !bind_stat_broken; reflexivity].
  assert (Hs : inspectable (seal child) = true)
    by (destruct child; try discriminate Ei; reflexivity).
  destruct (isDirectory child) eqn:Ed; cbn [andb].
  - destruct (excluded f) eqn:Ex.
    + rewrite !bind_stat_ok by first [exact Ei | reflexivity].
      cbn [isDirectory]. rewrite Ed, IHrest. reflexivity.
    + rewrite !bind_stat_ok by first [exact Ei | exact Hs].
      rewrite isDirectory_seal, Ed. cbn [snd] in Hc. rewrite Hc.
      destruct (walk (path_join dir f) child acc) as [t1 [e|mid]];
        unfold bind; [reflexivity|].
      rewrite IHrest. reflexivity.
  - rewrite !bind_stat_ok by first [exact Ei | exact Hs].
    rewrite isDirectory_seal, Ed.
    destruct (endsWith _ _); rewrite IHrest; reflexivity.
Qed.

End Walk.

(* ================================================================== *)
(** ** The review loop *)

Section Loop.

Variable w : World.

Lemma record_feedback_acc (p feedback : jsstring) (a : Acc) :
  record_feedback p (Some feedback) a
  = (mkAcc (report a ++ success_section p feedback)
           (resumoProblemas a ++ extracted p feedback),
     None).
Proof.
  unfold extracted, record_feedback, success_section, interpolate.
  cbn [fst]. f_equal.
  destruct (negb _).
  - destruct (str_match _ _) as [[|c m]|]; cbn [report resumoProblemas app];
      rewrite ?app_nil_r; reflexivity.
  - cbn [report resumoProblemas app]. rewrite ?app_nil_r. reflexivity.
Qed.

(** One turn of the loop never throws: it appends what [section_for]
    says for the file, and the summary entry if one was extracted. *)
Lemma review_file_spec (p : jsstring) (a : Acc) :
  review_file w p a
  = (fst (analyzeFile w p),
     inr (mkAcc (report a ++ section_for w p)
                (resumoProblemas a ++ entries_for w p))).
Proof.
  unfold review_file, section_for, entries_for, outcome.
  destruct (analyzeFile w p) as [t [err|fb]]; cbn [fst snd].
  - unfold record_error, failure_section.
    rewrite !app_nil_r. reflexivity.
  - destruct (full_feedback fb) as [text|].
    + rewrite record_feedback_acc. reflexivity.
    + unfold record_feedback, record_error, success_section, failure_section,
        interpolate.
      cbn [report resumoProblemas]. rewrite app_nil_r, <- !app_assoc.
      reflexivity.
Qed.

Lemma review_loop_spec (files : list jsstring) (a : Acc) :
  for_of files (review_file w) a
  = (flat_map (fun p => fst (analyzeFile w p)) files,
     inr (mkAcc (report a ++ flat_map (section_for w) files)
                (resumoProblemas a ++ flat_map (entries_for w) files))).
Proof.
  revert a; induction files as [|p files IH]; intros a; cbn [for_of flat_map].
  - rewrite !app_nil_r. destruct a; reflexivity.
  - erewrite bind_inr; [| apply review_file_spec | apply IH].
    cbn [report resumoProblemas]. rewrite <- !app_assoc. reflexivity.
Qed.

(** The whole of [main], case by case. *)
Lemma main_no_secret :
  truthy (GEMINI_API_KEY w) = false ->
  main w = ([], inl (mkError (js "GEMINI_API_KEY não encontrada. Abortando análise."))).
Proof. unfold main. intros ->. reflexivity. Qed.

Lemma main_walk_throws t err :
  truthy (GEMINI_API_KEY w) = true ->
  walk_src w [] = (t, inl err) ->
  main w = (t, inl err).
Proof.
  unfold main. intros -> H. cbn [negb]. rewrite (bind_inl _ H). reflexivity.
Qed.

Lemma bind_exists {B} (k : bool -> M B) :
  bind (existsSync_reports w) k
  = (Exists (js "reports") :: fst (k (reports_exists w)),
     snd (k (reports_exists w))).
Proof.
  unfold existsSync_reports, bind, emit, ret.
  destruct (k (reports_exists w)); reflexivity.
Qed.

Lemma main_mkdir_throws t files err :
  truthy (GEMINI_API_KEY w) = true ->
  walk_src w [] = (t, inr files) ->
  reports_exists w = false ->
  mkdir_error w = Some err ->
  main w = (t ++ [Exists (js "reports"); MkDir (js "reports")], inl err).
Proof.
  unfold main. intros -> Hwalk Hex Hmk. cbn [negb].
  erewrite bind_inr; [reflexivity | exact Hwalk |].
  rewrite bind_exists, Hex. cbn [negb].
  unfold mkdirSync_reports. rewrite Hmk.
  unfold bind, emit, throw. reflexivity.
Qed.

Lemma main_reaches_write t files :
  truthy (GEMINI_API_KEY w) = true ->
  walk_src w [] = (t, inr files) ->
  reports_exists w = true \/ mkdir_error w = None ->
  main w = (t ++ middle w files
              ++ [WriteFile report_path (report_of w files)],
            match write_error w with
            | Some err => inl err
            | None => inr tt
            end).
Proof.
  unfold main. intros -> Hwalk Hdir. cbn [negb].
  erewrite bind_inr; [reflexivity | exact Hwalk |].
  rewrite bind_exists.
  unfold middle, report_of, title, rule.
  assert (Hprep :
    (if negb (reports_exists w) then mkdirSync_reports w else ret tt)
    = ((if reports_exists w then [] else [MkDir (js "reports")]), inr tt)).
  { unfold mkdirSync_reports.
    destruct Hdir as [-> | Hmk]; [reflexivity|].
    rewrite Hmk. destruct (reports_exists w); reflexivity. }
  erewrite bind_inr; [| exact Hprep |].
  2:{ erewrite bind_inr; [reflexivity | apply review_loop_spec |].
      cbn [report resumoProblemas app].
      unfold writeFileSync_report. rewrite bind_emit.
      rewrite <- !app_assoc. reflexivity. }
  cbn [fst snd].
  destruct (write_error w); cbn [fst snd app]; rewrite <- ?app_assoc;
    reflexivity.
Qed.

(** A run completes exactly when it gets as far as writing the report,
    and then the write is its last effect. *)
Lemma main_completes_iff :
  (exists t, main w = (t, inr tt)) <-> writes_report w.
Proof.
  unfold writes_report. split.
  - intros [t H].
    destruct (truthy (GEMINI_API_KEY w)) eqn:Ek;
      [| rewrite (main_no_secret Ek) in H; discriminate].
    destruct (walk_src w []) as [tw [e|files]] eqn:Ew;
      [rewrite (main_walk_throws Ek Ew) in H; discriminate|].
    split; [reflexivity|]. split; [eauto|].
    destruct (reports_exists w) eqn:Ex.
    + rewrite (main_reaches_write Ek Ew (or_introl Ex)) in H.
      destruct (write_error w); [discriminate|]. auto.
    + destruct (mkdir_error w) as [e|] eqn:Em;
        [rewrite (main_mkdir_throws Ek Ew Ex Em) in H; discriminate|].
      rewrite (main_reaches_write Ek Ew (or_intror Em)) in H.
      destruct (write_error w); [discriminate|]. auto.
  - intros (Ek & (tw & files & Ew) & Hdir & Hwr).
    rewrite (main_reaches_write Ek Ew Hdir), Hwr. eauto.
Qed.

Lemma main_completes_inv t u :
  main w = (t, inr u) ->
  exists tw files,
    walk_src w [] = (tw, inr files) /\
    t = tw ++ middle w files ++ [WriteFile report_path (report_of w files)].
Proof.
  intros H. destruct u.
  destruct (proj1 main_completes_iff (ex_intro _ t H))
    as (Ek & (tw & files & Ew) & Hdir & Hwr).
  rewrite (main_reaches_write Ek Ew Hdir), Hwr in H.
  inversion H; subst. eauto.
Qed.

End Loop.

(* ================================================================== *)
(** ** What the pattern of [main] matches *)

Section RepeatFacts.

Variable body : jsstring -> list jsstring.

(** [Q] holds of the texts one iteration consumes and is closed under
    concatenation. *)
Variable Q : jsstring -> Prop.
Hypothesis Q_app : forall a b, Q a -> Q b -> Q (a ++ b).
Hypothesis body_consumes :
  forall s t, In t (body s) -> exists pre, s = pre ++ t /\ Q pre.

Lemma again_consumes (loop : jsstring -> list jsstring) :
  (forall s t, In t (loop s) -> t = s \/ exists pre, s = pre ++ t /\ Q pre) ->
  forall s t, In t (again body loop s) -> exists pre, s = pre ++ t /\ Q pre.
Proof.
  intros Hloop s t Hin. unfold again in Hin.
  apply in_flat_map in Hin as (s1 & H1 & Ht).
  destruct (length s1 <? length s)%nat; [|destruct Ht].
  destruct (body_consumes _ _ H1) as (pre1 & -> & HQ1).
  destruct (Hloop _ _ Ht) as [-> | (pre2 & -> & HQ2)].
  - exists pre1; auto.
  - exists (pre1 ++ pre2). rewrite <- app_assoc. auto.
Qed.

Lemma greedy_consumes (n : nat) :
  forall s t, In t (greedy body n s) ->
              t = s \/ exists pre, s = pre ++ t /\ Q pre.
Proof.
  induction n as [|n IH]; intros s t Hin; cbn [greedy] in Hin;
    apply in_app_or in Hin as [Hin | Hin].
  - destruct Hin.
  - destruct Hin as [<- | Hin]; [auto | destruct Hin].
  - right. eapply again_consumes; eauto.
  - destruct Hin as [<- | Hin]; [auto | destruct Hin].
Qed.

Lemma lazy_consumes (n : nat) :
  forall s t, In t (lazy_ body n s) ->
              t = s \/ exists pre, s = pre ++ t /\ Q pre.
Proof.
  induction n as [|n IH]; intros s t Hin; cbn [lazy_] in Hin;
    destruct Hin as [<- | Hin]; auto.
  - destruct Hin.
  - right. eapply again_consumes; eauto.
Qed.

End RepeatFacts.

Section TableRegex.

Lemma ends_Dot_consumes (s t : jsstring) :
  In t (ends Dot s) -> exists pre, s = pre ++ t /\ True.
Proof.
  destruct s as [|c s]; cbn [ends]; [intros [] | intros [<- | []]].
  exists [c]; auto.
Qed.

Lemma ends_Char (c : code_unit) (s t : jsstring) :
  In t (ends (Char c) s) -> s = c :: t.
Proof.
  destruct s as [|x s]; cbn [ends]; [intros []|].
  destruct (N.eqb_spec x c) as [-> | _];
    [intros [<- | []]; reflexivity | intros []].
Qed.

Lemma ends_row (s t : jsstring) :
  In t (ends table_row s) -> exists pre, s = pre ++ t /\ whole_lines pre.
Proof.
  unfold table_row. cbn [ends]. intros Hin.
  apply in_flat_map in Hin as (s1 & H1 & Hin).
  apply in_flat_map in Hin as (s2 & H2 & Hin).
  apply ends_Char in H1 as ->. apply ends_Char in Hin.
  assert (Hcells : exists cells, s1 = cells ++ s2).
  { destruct (@lazy_consumes (ends Dot) (fun _ => True)
                (fun _ _ _ _ => I) ends_Dot_consumes _ _ _ H2)
      as [-> | (cells & -> & _)]; [exists [] | exists cells]; reflexivity. }
  destruct Hcells as [cells ->]. subst s2.
  exists (PIPE :: cells ++ [LF]). split.
  - cbn [app]. rewrite <- app_assoc. reflexivity.
  - exists cells; reflexivity.
Qed.

Lemma lines_app (a b : jsstring) : whole_lines a -> whole_lines b -> whole_lines (a ++ b).
Proof.
  intros [x ->] [y ->]. exists (x ++ [LF] ++ PIPE :: y).
  cbn [app]. rewrite <- !app_assoc. reflexivity.
Qed.

Lemma ends_rows (s t : jsstring) :
  In t (ends (Plus table_row) s) -> exists pre, s = pre ++ t /\ whole_lines pre.
Proof.
  unfold Plus. cbn [ends]. intros Hin.
  apply in_flat_map in Hin as (s1 & H1 & Hin).
  apply ends_row in H1 as (pre1 & -> & HQ1).
  destruct (@greedy_consumes (ends table_row) whole_lines lines_app ends_row _ _ _ Hin)
    as [-> | (pre2 & -> & HQ2)].
  - exists pre1; auto.
  - exists (pre1 ++ pre2). rewrite <- app_assoc.
    split; [reflexivity | apply lines_app; assumption].
Qed.

Lemma flat_map_head {A B} (f : A -> list B) (l : list A) (b : B) tl :
  flat_map f l = b :: tl -> exists a tl', In a l /\ f a = b :: tl'.
Proof.
  induction l as [|a l IH]; cbn [flat_map]; [discriminate|].
  destruct (f a) as [|b' tl'] eqn:E; cbn [app].
  - intros H. destruct (IH H) as (a' & tl'' & Hin & Hf).
    exists a', tl''. split; [right; exact Hin | exact Hf].
  - intros H. inversion H; subst. exists a, tl'. split; [left; reflexivity | exact E].
Qed.

(** The match the engine settles on is made of whole whole_lines and of the
    delimiter that opens the next one, and nothing more: the lazy
    [.*?] that ends the pattern takes nothing. *)
Lemma ends_tableRegex_head (s rest : jsstring) tl :
  ends tableRegex s = rest :: tl ->
  exists x, s = (PIPE :: x ++ [LF; PIPE]) ++ rest.
Proof.
  unfold tableRegex. fold table_row. cbn [ends]. intros H.
  apply flat_map_head in H as (s1 & tl' & H1 & H).
  apply ends_rows in H1 as (pre & -> & [x ->]).
  apply flat_map_head in H as (s2 & tl'' & H2 & H).
  apply ends_Char in H2 as ->.
  destruct (length s2); cbn [lazy_] in H; inversion H; subst.
  all: exists x; cbn [app]; rewrite <- !app_assoc; reflexivity.
Qed.

Lemma matched_app (x rest : jsstring) : matched (x ++ rest) rest = x.
Proof.
  unfold matched. rewrite length_app.
  replace (length x + length rest - length rest)%nat with (length x) by lia.
  rewrite firstn_app, Nat.sub_diag, firstn_all. cbn [firstn].
  apply app_nil_r.
Qed.

Lemma str_match_tableRegex (s m : jsstring) :
  str_match tableRegex s = Some m -> exists x, m = PIPE :: x ++ [LF; PIPE].
Proof.
  induction s as [|c s IH]; cbn [str_match].
  - destruct (ends tableRegex []) as [|rest tl] eqn:E; [discriminate|].
    apply ends_tableRegex_head in E as [pre E]. discriminate.
  - destruct (ends tableRegex (c :: s)) as [|rest tl] eqn:E; [exact IH|].
    apply ends_tableRegex_head in E as [pre E].
    intros H; inversion H; subst. rewrite E, matched_app. eauto.
Qed.

(** [trim] leaves such a match as it is. *)
Lemma trim_delimited (x : jsstring) :
  trim (PIPE :: x ++ [LF; PIPE]) = PIPE :: x ++ [LF; PIPE].
Proof.
  unfold trim. cbn [trimStart]. change (isWhiteSpace PIPE) with false.
  cbn iota. unfold trimEnd.
  change (PIPE :: x ++ [LF; PIPE]) with ((PIPE :: x) ++ [LF; PIPE]).
  rewrite rev_app_distr. cbn [rev app trimStart].
  change (isWhiteSpace PIPE) with false. cbn iota.
  change (PIPE :: LF :: rev x ++ [PIPE])
    with (rev [LF; PIPE] ++ rev (PIPE :: x)).
  rewrite <- rev_app_distr. apply rev_involutive.
Qed.

(** Every summary entry ends with a line that holds the delimiter and
    nothing else: the last line of the table the feedback holds is
    cut down to its first character. *)
Lemma extracted_ends_cut (p feedback entry : jsstring) :
  In entry (extracted p feedback) ->
  exists x, entry = subheading p ++ PIPE :: x ++ [LF; PIPE] ++ [LF].
Proof.
  unfold extracted, record_feedback, subheading.
  destruct (negb _); [|intros []].
  destruct (str_match _ _) as [[|c m]|] eqn:E; cbn [resumoProblemas app];
    [intros [] | | intros []].
  apply str_match_tableRegex in E as [x E]. rewrite E, trim_delimited.
  intros [<- | []]. exists x.
  rewrite <- !app_assoc. cbn [app]. rewrite <- !app_assoc. reflexivity.
Qed.

End TableRegex.

(* ================================================================== *)
(** ** The match of the pattern, exactly *)

Section RepeatBound.

Variable body : jsstring -> list jsstring.

Lemma again_nil (loop : jsstring -> list jsstring) :
  again body loop [] = [].
Proof.
  unfold again. rewrite (flat_map_ext _ (fun _ => [])).
  - induction (body []) as [|s1 l IH]; [reflexivity | exact IH].
  - intros s1. destruct (Nat.ltb_spec (length s1) (length (@nil code_unit)));
      [cbn in *; lia | reflexivity].
Qed.

Lemma again_ext (loop1 loop2 : jsstring -> list jsstring) (s : jsstring) :
  (forall s1, (length s1 < length s)%nat -> loop1 s1 = loop2 s1) ->
  again body loop1 s = again body loop2 s.
Proof.
  intros H. unfold again. apply flat_map_ext. intros s1.
  destruct (Nat.ltb_spec (length s1) (length s)); [apply H; assumption|].
  reflexivity.
Qed.

(** The counter of the loops never runs out: any bound that is at
    least the length of the input gives the same matches. *)
Lemma greedy_bound (n : nat) :
  forall m s, (length s <= n)%nat -> (length s <= m)%nat ->
              greedy body n s = greedy body m s.
Proof.
  induction n as [|n IH]; intros m s Hn Hm.
  - destruct s; [|cbn in Hn; lia].
    destruct m; cbn [greedy]; rewrite ?again_nil; reflexivity.
  - destruct m as [|m].
    + destruct s; [|cbn in Hm; lia]. cbn [greedy]. rewrite again_nil.
      reflexivity.
    + cbn [greedy]. f_equal. apply again_ext.
      intros s1 Hlt. apply IH; lia.
Qed.

Lemma lazy_bound (n : nat) :
  forall m s, (length s <= n)%nat -> (length s <= m)%nat ->
              lazy_ body n s = lazy_ body m s.
Proof.
  induction n as [|n IH]; intros m s Hn Hm.
  - destruct s; [|cbn in Hn; lia].
    destruct m; cbn [lazy_]; rewrite ?again_nil; reflexivity.
  - destruct m as [|m].
    + destruct s; [|cbn in Hm; lia]. cbn [lazy_]. rewrite again_nil.
      reflexivity.
    + cbn [lazy_]. f_equal. apply again_ext.
      intros s1 Hlt. apply IH; lia.
Qed.

End RepeatBound.

Section ExactMatch.

Lemma find_app_first {A} (p : A -> bool) (l1 l2 : list A) :
  find p (l1 ++ l2)
  = match find p l1 with
    | Some a => Some a
    | None => find p l2
    end.
Proof.
  induction l1 as [|a l1 IH]; [reflexivity|]. cbn [app find].
  destruct (p a); [reflexivity | exact IH].
Qed.

Lemma find_flat_map {A B} (p : B -> bool) (f : A -> list B)
      (h : A -> option B) (l : list A) :
  (forall a, In a l -> find p (f a) = h a) ->
  find p (flat_map f l) = first_some h l.
Proof.
  induction l as [|a l IH]; intros H; [reflexivity|].
  cbn [flat_map first_some]. rewrite find_app_first, (H a (or_introl eq_refl)).
  destruct (h a); [reflexivity|].
  apply IH. intros b Hb. apply H. right; exact Hb.
Qed.

Lemma lazy_Dot_tails (s : jsstring) :
  lazy_ (ends Dot) (length s) s = tails s.
Proof.
  induction s as [|c s IH]; [reflexivity|].
  cbn [length lazy_ tails]. f_equal.
  unfold again. cbn [ends flat_map length].
  destruct (Nat.ltb_spec (length s) (S (length s))); [|lia].
  rewrite app_nil_r. exact IH.
Qed.

Lemma ends_LF_tails (s : jsstring) :
  flat_map (ends (Char LF)) (tails s) = after_LF s.
Proof.
  induction s as [|c s IH]; [reflexivity|].
  cbn [tails flat_map]. rewrite IH. reflexivity.
Qed.

Lemma ends_table_row (s : jsstring) :
  ends table_row s
  = match s with
    | c :: s' => if (c =? PIPE)%N then after_LF s' else []
    | [] => []
    end.
Proof.
  unfold table_row. destruct s as [|c s']; [reflexivity|].
  cbn [ends]. destruct (c =? PIPE)%N; [|reflexivity].
  cbn [flat_map ends]. rewrite app_nil_r, lazy_Dot_tails.
  apply ends_LF_tails.
Qed.

Lemma after_LF_shorter (s t : jsstring) :
  In t (after_LF s) -> (length t < length s)%nat.
Proof.
  induction s as [|c s IH]; [intros []|]. cbn [after_LF length].
  intros H. apply in_app_or in H as [H | H].
  - destruct (c =? LF)%N; [|destruct H]. destruct H as [<- | []]. lia.
  - specialize (IH H). lia.
Qed.

Lemma first_open_after_LF (s : jsstring) :
  first_some (fun t => if opens_row t then Some (final_row t) else None)
             (after_LF s)
  = last_open s.
Proof.
  induction s as [|c s IH]; [reflexivity|].
  cbn [after_LF last_open]. destruct (c =? LF)%N; cbn [app first_some andb].
  - destruct (opens_row s); [|rewrite IH; destruct (last_open s); reflexivity].
    unfold final_row. destruct (last_open s); reflexivity.
  - rewrite IH. destruct (last_open s); reflexivity.
Qed.

Lemma last_open_first_line (s' : jsstring) :
  last_open (PIPE :: s') = last_open s'.
Proof. cbn [last_open]. destruct (last_open s'); reflexivity. Qed.

(** Among the ways to go on with further lines, the engine prefers the
    one that reaches the last line that begins with the delimiter. *)
Lemma greedy_rows_first (n : nat) :
  forall s, (length s <= n)%nat ->
            find opens_row (greedy (ends table_row) n s)
            = if opens_row s then Some (final_row s) else None.
Proof.
  induction n as [|n IH]; intros s Hn.
  - destruct s; [reflexivity | cbn in Hn; lia].
  - cbn [greedy]. rewrite find_app_first.
    destruct s as [|c s']; [rewrite again_nil; reflexivity|].
    unfold again. rewrite ends_table_row. cbn [opens_row].
    destruct (N.eqb_spec c PIPE) as [-> | Hc].
    + rewrite (find_flat_map _ _
                 (fun t => if opens_row t then Some (final_row t) else None)).
      * rewrite first_open_after_LF. unfold final_row.
        rewrite last_open_first_line.
        destruct (last_open s'); [reflexivity|].
        cbn [find opens_row]. rewrite N.eqb_refl. reflexivity.
      * intros t Ht. apply after_LF_shorter in Ht. cbn [length] in Hn |- *.
        destruct (Nat.ltb_spec (length t) (S (length s'))); [|lia].
        apply IH. lia.
    + cbn [flat_map find opens_row].
      destruct (N.eqb_spec c PIPE); [contradiction | reflexivity].
Qed.

Lemma rows_first (s : jsstring) :
  find opens_row (ends (Plus table_row) s)
  = if opens_row s then last_open s else None.
Proof.
  unfold Plus. cbn [ends]. rewrite ends_table_row.
  destruct s as [|c s']; [reflexivity|]. cbn [opens_row].
  destruct (N.eqb_spec c PIPE) as [-> | Hc]; [|reflexivity].
  rewrite (find_flat_map _ _
             (fun t => if opens_row t then Some (final_row t) else None)).
  - rewrite first_open_after_LF, last_open_first_line. reflexivity.
  - intros t _. apply greedy_rows_first. lia.
Qed.

Lemma delimiter_then_nothing (l : list jsstring) :
  hd_error (flat_map (ends (Seq (Char PIPE) (LazyStar Dot))) l)
  = option_map (@tl code_unit) (find opens_row l).
Proof.
  induction l as [|t l IH]; [reflexivity|].
  cbn [flat_map find]. destruct t as [|c u]; [exact IH|].
  cbn [ends opens_row]. destruct (c =? PIPE)%N; [|exact IH].
  cbn [flat_map]. rewrite app_nil_r.
  destruct (length u); reflexivity.
Qed.

(** The first match of the pattern at the start of [s]. *)
Lemma ends_tableRegex_first (s : jsstring) :
  hd_error (ends tableRegex s)
  = if opens_row s then option_map (@tl code_unit) (last_open s) else None.
Proof.
  unfold tableRegex. fold table_row.
  change (ends (Seq (Plus table_row) (Seq (Char PIPE) (LazyStar Dot))) s)
    with (flat_map (ends (Seq (Char PIPE) (LazyStar Dot)))
                   (ends (Plus table_row) s)).
  rewrite delimiter_then_nothing, rows_first.
  destruct (opens_row s); reflexivity.
Qed.

Lemma last_open_tail (c : code_unit) (s : jsstring) :
  last_open (c :: s) = None -> last_open s = None.
Proof. cbn [last_open]. destruct (last_open s); [discriminate | reflexivity]. Qed.

Lemma str_match_none (s : jsstring) :
  last_open s = None -> str_match tableRegex s = None.
Proof.
  induction s as [|c s IH]; intros H; cbn [str_match].
  - assert (E := ends_tableRegex_first []).
    destruct (ends tableRegex []); [reflexivity | discriminate E].
  - assert (E := ends_tableRegex_first (c :: s)). rewrite H in E.
    destruct (ends tableRegex (c :: s)) as [|r l].
    + apply IH. eapply last_open_tail; exact H.
    + destruct (opens_row (c :: s)); discriminate E.
Qed.

Lemma last_open_spec (s t : jsstring) :
  last_open s = Some t ->
  exists x u, s = x ++ [LF; PIPE] ++ u /\ t = PIPE :: u /\ last_open t = None.
Proof.
  revert t; induction s as [|c s IH]; intros t; [discriminate|].
  cbn [last_open]. destruct (last_open s) as [t'|] eqn:E.
  - intros H; inversion H; subst t'.
    destruct (IH t eq_refl) as (x & u & -> & -> & Hn).
    exists (c :: x), u. auto.
  - destruct (N.eqb_spec c LF) as [-> | _]; [|discriminate]. cbn [andb].
    destruct s as [|d u]; [discriminate|]. cbn [opens_row].
    destruct (N.eqb_spec d PIPE) as [-> | _]; [|discriminate].
    intros H; inversion H; subst t. exists [], u. auto.
Qed.

Lemma last_open_none (s : jsstring) :
  last_open s = None <-> ~ occurs [LF; PIPE] s.
Proof.
  split.
  - induction s as [|c s IH]; intros H (pre & post & Hs).
    + destruct pre; discriminate.
    + destruct pre as [|d pre]; cbn [app] in Hs.
      * inversion Hs; subst.
        assert (Ht : opens_row (PIPE :: post) = true) by reflexivity.
        remember (PIPE :: post) as t. cbn [last_open] in H.
        destruct (last_open t); [discriminate|].
        rewrite Ht, N.eqb_refl in H. discriminate.
      * inversion Hs; subst.
        apply (IH (last_open_tail _ _ H)). exists pre, post. reflexivity.
  - intros Hno. destruct (last_open s) as [t|] eqn:E; [|reflexivity].
    exfalso. apply Hno.
    destruct (last_open_spec _ E) as (x & u & -> & _). exists x, u. reflexivity.
Qed.

Lemma last_open_last (x u : jsstring) :
  last_open (PIPE :: u) = None ->
  last_open (x ++ [LF; PIPE] ++ u) = Some (PIPE :: u).
Proof.
  intros Hu. induction x as [|c x IH]; cbn [app] in *.
  - assert (Ht : opens_row (PIPE :: u) = true) by reflexivity.
    remember (PIPE :: u) as t. cbn [last_open].
    rewrite Hu, Ht, N.eqb_refl. reflexivity.
  - remember (x ++ LF :: PIPE :: u) as r. cbn [last_open].
    rewrite IH. reflexivity.
Qed.

(** A text that begins with the delimiter is matched from its start
    through the delimiter that opens its last delimiter-led line, prose
    in between included; and a text in which no line break is followed
    by the delimiter is not matched at all. *)
Lemma str_match_exact (x u : jsstring) :
  opens_row x = true ->
  ~ occurs [LF; PIPE] (PIPE :: u) ->
  str_match tableRegex (x ++ [LF; PIPE] ++ u) = Some (x ++ [LF; PIPE]).
Proof.
  intros Hx Hu. apply last_open_none in Hu.
  assert (Hs : opens_row (x ++ [LF; PIPE] ++ u) = true)
    by (destruct x; [discriminate | exact Hx]).
  assert (E := ends_tableRegex_first (x ++ [LF; PIPE] ++ u)).
  rewrite Hs, (last_open_last _ _ Hu) in E. cbn [option_map tl] in E.
  destruct x as [|c x]; [discriminate|].
  cbn [app str_match] in E |- *.
  destruct (ends tableRegex _) as [|r l]; [discriminate|].
  inversion E; subst r. f_equal.
  replace (c :: x ++ LF :: PIPE :: u) with ((c :: x ++ [LF; PIPE]) ++ u)
    by (cbn [app]; rewrite <- app_assoc; reflexivity).
  apply matched_app.
Qed.

Lemma str_match_unmatched (s : jsstring) :
  ~ occurs [LF; PIPE] s -> str_match tableRegex s = None.
Proof. intros H. apply str_match_none, last_open_none, H. Qed.

Lemma substring_app (pre rest : jsstring) :
  substring (pre ++ rest) (Z.of_nat (length pre)) = rest.
Proof.
  unfold substring. rewrite Z.max_r by lia. rewrite Nat2Z.id.
  rewrite skipn_app, skipn_all, Nat.sub_diag. reflexivity.
Qed.

(** What the [try] block extracts from a feedback text, exactly: with
    the marker first found after [pre], the entry holds the text from
    the marker through the delimiter that opens the last
    delimiter-led line of the feedback. *)
Lemma extracted_exact (p pre x u : jsstring) :
  indexOf (pre ++ x ++ [LF; PIPE] ++ u) tableStartMarker
  = Z.of_nat (length pre) ->
  opens_row x = true ->
  ~ occurs [LF; PIPE] (PIPE :: u) ->
  extracted p (pre ++ x ++ [LF; PIPE] ++ u)
  = [subheading p ++ x ++ [LF; PIPE] ++ [LF]].
Proof.
  intros Hi Hx Hu. unfold extracted, record_feedback, subheading.
  rewrite Hi, substring_app.
  destruct (Z.eqb_spec (Z.of_nat (length pre)) (-1)); [lia|]. cbn [negb].
  rewrite (str_match_exact _ Hx Hu).
  destruct x as [|c x]; [discriminate|]. cbn [opens_row] in Hx.
  apply N.eqb_eq in Hx; subst c. cbn [app resumoProblemas].
  rewrite trim_delimited. f_equal.
  repeat first [rewrite <- app_assoc | progress cbn [app]]. reflexivity.
Qed.

(** With the marker on the last line of the feedback, nothing is
    extracted. *)
Lemma extracted_nothing (p pre rest : jsstring) :
  indexOf (pre ++ rest) tableStartMarker = Z.of_nat (length pre) ->
  ~ occurs [LF; PIPE] rest ->
  extracted p (pre ++ rest) = [].
Proof.
  intros Hi Hno. unfold extracted, record_feedback.
  rewrite Hi, substring_app, (str_match_unmatched Hno).
  destruct (negb _); reflexivity.
Qed.

End ExactMatch.

(* ================================================================== *)
(** ** Properties of the pipeline *)

Lemma flat_map_sections (w : World) (files : list jsstring) :
  flat_map (section_for w) files = concat (map (section_for w) files).
Proof. apply flat_map_concat_map. Qed.

Lemma tabelaGeral_cases (entries : list jsstring) :
  tabelaGeral entries
  = summary_heading
    ++ match entries with
       | [] => summary_placeholder
       | _ :: _ => summary_intro ++ join [LF] entries
       end.
Proof.
  unfold tabelaGeral, summary_heading, summary_placeholder, summary_intro.
  destruct entries; cbn [length Nat.ltb Nat.leb]; rewrite <- ?app_assoc;
    reflexivity.
Qed.

(** When every review that resolves gives a text, which is what the
    script takes for granted, the report of a completed run holds,
    between the title and the closing rule, exactly one section per
    discovered file, in the order of discovery: the success section
    with the feedback text when the review resolved, the failure
    section with the error message when it threw. *)
Lemma one_section_per_file_when_every_response_has_text
  (w : World) (t : list event) (u : unit) :
  main w = (t, inr u) ->
  (forall p, outcome w p <> inr None) ->
  exists tw files t' sections entries,
    walk_src w [] = (tw, inr files) /\
    t = t' ++ [WriteFile report_path
                 (title ++ concat sections ++ rule ++ tabelaGeral entries)] /\
    Forall2
      (fun p sec =>
         match outcome w p with
         | inr (Some feedback) => sec = success_section p feedback
         | inr None => False
         | inl err => sec = failure_section p (message err)
         end)
      files sections.
Proof.
  intros H Htext. apply main_completes_inv in H as (tw & files & Hw & ->).
  exists tw, files, (tw ++ middle w files), (map (section_for w) files),
    (flat_map (entries_for w) files).
  split; [exact Hw|]. split.
  - unfold report_of. rewrite flat_map_sections, <- !app_assoc. reflexivity.
  - clear Hw. induction files as [|p files IH]; cbn [map]; constructor; auto.
    unfold section_for. specialize (Htext p).
    destruct (outcome w p) as [err|[text|]]; [reflexivity | reflexivity|].
    apply Htext. reflexivity.
Qed.

(** In general the report of a completed run holds, for every
    discovered file in turn, what [section_for] says: two sections for
    a file whose response has no text. *)
Lemma sections_of_a_completed_run (w : World) (t : list event) (u : unit) :
  main w = (t, inr u) ->
  exists tw files t',
    walk_src w [] = (tw, inr files) /\
    t = t' ++ [WriteFile report_path
                 (title ++ flat_map (section_for w) files ++ rule
                  ++ tabelaGeral (flat_map (entries_for w) files))] /\
    forall p,
      outcome w p = inr None ->
      section_for w p
      = success_section p (js "undefined")
        ++ failure_section p (message indexOf_of_undefined).
Proof.
  intros H. apply main_completes_inv in H as (tw & files & Hw & ->).
  exists tw, files, (tw ++ middle w files).
  split; [exact Hw|]. split.
  - unfold report_of. rewrite <- !app_assoc. reflexivity.
  - intros p Hp. unfold section_for. rewrite Hp. reflexivity.
Qed.

(** C1. The run over [src/a.js] and [src/b.js] in which the service
    answers the prompt for [src/a.js] with a response without text
    completes, and the report it writes holds two sections labeled
    [src/a.js]: the success section, with the text [undefined], and
    after it the failure section with the error that the call of
    [indexOf] on that text throws; [src/b.js] has its one section. *)
Theorem response_without_text_gives_two_sections :
  snd (walk_src world_with_empty_response [])
  = inr [js "src/a.js"; js "src/b.js"]
  /\ snd (main world_with_empty_response) = inr tt
  /\ writes (fst (main world_with_empty_response))
     = [(js "reports/ai-code-review.md",
         js "# Relatório de Revisão AI – Gemini" ++ [LF; LF]
         ++ js "## Arquivo: src/a.js" ++ [LF; LF]
         ++ js "undefined" ++ [LF; LF]
         ++ js "## Arquivo: src/a.js" ++ [LF; LF]
         ++ js "**Erro ao analisar**: Cannot read properties of undefined (reading 'indexOf')"
         ++ [LF; LF]
         ++ js "## Arquivo: src/b.js" ++ [LF; LF]
         ++ js "Sem problemas." ++ [LF; LF]
         ++ [LF] ++ js "---" ++ [LF; LF]
         ++ js "## 📊 Resumo de Problemas por Arquivo" ++ [LF; LF]
         ++ js "Nenhum arquivo JavaScript encontrado para análise ou não foi possível extrair os resumos das tabelas."
         ++ [LF; LF])].
Proof. repeat split; vm_compute; reflexivity. Qed.

(** C2. On a feedback text that ends with a well-formed table right at
    the marker, the entry extracted is not the table: it holds the
    header row, the separator row and, of the one data row, the
    delimiter alone.  This is the general case, see [extracted_ends_cut]
    and [extracted_exact]. *)
Theorem table_extraction_cuts_the_last_row :
  extracted (js "src/a.js") sample_feedback
  = [js "### Resumo do Arquivo: `src/a.js`" ++ [LF]
     ++ js "| Problema Principal | Local/Linha Sugerida |" ++ [LF]
     ++ js "|---|---|" ++ [LF]
     ++ js "|" ++ [LF]]
  /\ occurs (js "| Problema Principal | Local/Linha Sugerida |" ++ [LF]
             ++ js "|---|---|" ++ [LF]
             ++ js "| Nenhum problema grave encontrado | - |" ++ [LF])
            sample_feedback
  /\ Forall (fun entry =>
               indexOf entry (js "Nenhum problema grave encontrado") = (-1)%Z)
            (extracted (js "src/a.js") sample_feedback).
Proof.
  assert (E : extracted (js "src/a.js") sample_feedback
  = [js "### Resumo do Arquivo: `src/a.js`" ++ [LF]
     ++ js "| Problema Principal | Local/Linha Sugerida |" ++ [LF]
     ++ js "|---|---|" ++ [LF]
     ++ js "|" ++ [LF]]) by (vm_compute; reflexivity).
  split; [exact E|]. split.
  - exists (js "O código é curto e claro." ++ [LF; LF]), [].
    vm_compute. reflexivity.
  - rewrite E. constructor; [|constructor]. vm_compute. reflexivity.
Qed.

(** When prose follows the table and a later line begins with the
    delimiter, the entry runs over the prose up to that delimiter. *)
Example table_extraction_runs_over_prose :
  extracted (js "src/a.js")
    (js "| Problema Principal | Local |" ++ [LF]
     ++ js "|---|---|" ++ [LF]
     ++ js "| eval | 3 |" ++ [LF]
     ++ [LF]
     ++ js "Em resumo:" ++ [LF]
     ++ js "| veja a linha 3")
  = [js "### Resumo do Arquivo: `src/a.js`" ++ [LF]
     ++ js "| Problema Principal | Local |" ++ [LF]
     ++ js "|---|---|" ++ [LF]
     ++ js "| eval | 3 |" ++ [LF]
     ++ [LF]
     ++ js "Em resumo:" ++ [LF]
     ++ js "|" ++ [LF]].
Proof. vm_compute. reflexivity. Qed.

(** C3. When the secret is absent or empty, the run does nothing but
    fail: the only effects of the process are the message on the error
    stream, which names the missing secret, and the exit with status 1;
    no directory is listed, no file is read and the service is not
    called. *)
Theorem missing_secret_is_fatal_before_any_effect (w : World) :
  GEMINI_API_KEY w = None \/ GEMINI_API_KEY w = Some [] ->
  program w
  = ([ConsoleError (js "Falha fatal na execução do ai_review:")
        (inl (js "GEMINI_API_KEY não encontrada. Abortando análise."));
      Exit 1],
     1%Z)
  /\ occurs (js "GEMINI_API_KEY")
            (js "GEMINI_API_KEY não encontrada. Abortando análise.").
Proof.
  intros Hkey. split.
  - unfold program. rewrite main_no_secret.
    + vm_compute. reflexivity.
    + destruct Hkey as [-> | ->]; reflexivity.
  - exists [], (js " não encontrada. Abortando análise.").
    vm_compute. reflexivity.
Qed.

Lemma missing_secret_is_fatal_before_any_effect_witness :
  (GEMINI_API_KEY world_without_secret = None
   \/ GEMINI_API_KEY world_without_secret = Some []) /\
  program world_without_secret
  = ([ConsoleError (js "Falha fatal na execução do ai_review:")
        (inl (js "GEMINI_API_KEY não encontrada. Abortando análise."));
      Exit 1],
     1%Z).
Proof.
  split; [left; reflexivity|].
  apply (missing_secret_is_fatal_before_any_effect world_without_secret).
  left; reflexivity.
Defined.

(** The two ways the review of a file throws: the file cannot be read,
    or the call to the service is rejected. *)
Lemma outcome_read_failure (w : World) (p : jsstring) (err : Error) :
  file_text w p = inl err -> outcome w p = inl err.
Proof.
  intros H. unfold outcome, analyzeFile, readFileSync.
  unfold bind, emit, lift. rewrite H. reflexivity.
Qed.

Lemma outcome_service_failure (w : World) (p code : jsstring) (err : Error) :
  truthy (GEMINI_API_KEY w) = true ->
  file_text w p = inr code ->
  generate w model_name (trim (prompt_template code)) = inl err ->
  outcome w p = inl err.
Proof.
  intros Hk Hf Hg. unfold outcome, analyzeFile, readFileSync, generateContent.
  unfold bind, emit, lift, throw, ret. rewrite Hf, Hk, Hg. reflexivity.
Qed.

Lemma outcome_success (w : World) (p code : jsstring) (text : option jsstring) :
  truthy (GEMINI_API_KEY w) = true ->
  file_text w p = inr code ->
  generate w model_name (trim (prompt_template code)) = inr text ->
  outcome w p = inr text.
Proof.
  intros Hk Hf Hg. unfold outcome, analyzeFile, readFileSync, generateContent.
  unfold bind, emit, lift, throw, ret. rewrite Hf, Hk, Hg. reflexivity.
Qed.

(** C4. When the review of a discovered file [X] throws, the run still
    completes: the report holds the failure section of [X] with the
    error message, the files before and after [X] have the sections and
    summary entries they have in any case, every one of them is
    reviewed, and [X] adds no summary entry. *)
Theorem failed_review_is_recorded_and_run_continues
  (w : World) (tw : list event) (before after : list jsstring)
  (X : jsstring) (err : Error) :
  writes_report w ->
  walk_src w [] = (tw, inr (before ++ X :: after)) ->
  outcome w X = inl err ->
  main w
  = (tw ++ middle w (before ++ X :: after)
        ++ [WriteFile report_path
              (title
               ++ flat_map (section_for w) before
               ++ failure_section X (message err)
               ++ flat_map (section_for w) after
               ++ rule
               ++ tabelaGeral (flat_map (entries_for w) before
                               ++ flat_map (entries_for w) after))],
     inr tt)
  /\ (forall p, In p after ->
                incl (fst (analyzeFile w p))
                     (middle w (before ++ X :: after))).
Proof.
  intros (Ek & _ & Hdir & Hwr) Hw HX. split.
  - rewrite (main_reaches_write w Ek Hw Hdir), Hwr.
    unfold report_of. rewrite !flat_map_app. cbn [flat_map].
    unfold section_for at 2, entries_for at 2. rewrite HX.
    cbn [app]. rewrite <- !app_assoc. reflexivity.
  - intros p Hp e He. unfold middle. right.
    apply in_or_app; right. apply in_flat_map. exists p. split; [|exact He].
    apply in_or_app; right; right; exact Hp.
Qed.

Lemma sample_world_writes_report : writes_report sample_world.
Proof.
  unfold writes_report. split; [reflexivity|]. split.
  - eexists _, _. vm_compute. reflexivity.
  - split; [right|]; reflexivity.
Defined.

Lemma failed_review_is_recorded_and_run_continues_witness :
  let w := sample_world in
  let tw := fst (walk_src w []) in
  let X := js "src/lib/b.js" in
  let err := mkError (js "EACCES: permission denied") in
  writes_report w /\
  walk_src w [] = (tw, inr ([js "src/a.js"] ++ X :: [js "src/z.js"])) /\
  outcome w X = inl err /\
  main w
  = (tw ++ middle w ([js "src/a.js"] ++ X :: [js "src/z.js"])
        ++ [WriteFile report_path
              (title
               ++ flat_map (section_for w) [js "src/a.js"]
               ++ failure_section X (message err)
               ++ flat_map (section_for w) [js "src/z.js"]
               ++ rule
               ++ tabelaGeral (flat_map (entries_for w) [js "src/a.js"]
                               ++ flat_map (entries_for w) [js "src/z.js"]))],
     inr tt).
Proof.
  intros w tw X err.
  assert (Hw : walk_src w [] = (tw, inr ([js "src/a.js"] ++ X :: [js "src/z.js"])))
    by (vm_compute; reflexivity).
  assert (HX : outcome w X = inl err) by (vm_compute; reflexivity).
  split; [exact sample_world_writes_report|].
  split; [exact Hw|]. split; [exact HX|].
  exact (proj1 (@failed_review_is_recorded_and_run_continues
                  w tw [js "src/a.js"] [js "src/z.js"] X err
                  sample_world_writes_report Hw HX)).
Defined.

(** C5. Discovery from the root [src] is the depth-first walk in the
    order of the directory listings.  On a tree whose entries can be
    inspected and whose directories can be listed, the excluded ones
    apart, [walk] returns the listing [discover]: it holds exactly the
    entries that are not directories, whose name ends with [.js], and
    that are reached from the root through directories none of which is
    named node_modules, tests or reports; every directory with another
    name is entered.  An excluded directory is not even listed: the
    walk and its effects are the same when listing it would throw. *)
Theorem walk_discovers_js_files_outside_excluded (w : World) (d : node) :
  src_tree w = Some d ->
  listable d = true ->
  (exists t, walk_src w [] = (t, inr (discover (js "src") d))) /\
  (forall p,
      In p (discover (js "src") d) <->
      exists chain f,
        located d chain f /\
        Forall (fun g => g <> js "node_modules" /\ g <> js "tests"
                         /\ g <> js "reports") chain /\
        (exists stem, f = stem ++ js ".js") /\
        p = path_of (js "src") chain f) /\
  walk (js "src") (seal d) [] = walk (js "src") d [].
Proof.
  intros Hsrc Hl. split; [|split].
  - unfold walk_src. rewrite Hsrc.
    destruct (walk_listable d (js "src") [] Hl) as [t Ht]. eauto.
  - intros p. rewrite discover_located.
    split; intros (chain & f & Hloc & Hch & Hext & Hp);
      exists chain, f; (split; [exact Hloc|]); (split; [|split; [|exact Hp]]).
    + eapply Forall_impl; [|exact Hch]. intros g Hg. cbv beta in Hg.
      unfold excluded in Hg. apply orb_false_iff in Hg as [Hg H3].
      apply orb_false_iff in Hg as [H1 H2].
      repeat split; intros ->; rewrite str_eqb_refl in *; discriminate.
    + apply endsWith_iff; exact Hext.
    + eapply Forall_impl; [|exact Hch]. intros g (H1 & H2 & H3). cbv beta.
      unfold excluded.
      destruct (str_eqb g (js "node_modules")) eqn:E1;
        [apply str_eqb_eq in E1; contradiction|].
      destruct (str_eqb g (js "tests")) eqn:E2;
        [apply str_eqb_eq in E2; contradiction|].
      destruct (str_eqb g (js "reports")) eqn:E3;
        [apply str_eqb_eq in E3; contradiction|].
      reflexivity.
    + apply endsWith_iff; exact Hext.
  - apply walk_seal.
Qed.

Lemma walk_discovers_js_files_outside_excluded_witness :
  (src_tree sample_world = Some sample_tree /\ listable sample_tree = true) /\
  (exists t, walk_src sample_world [] = (t, inr (discover (js "src") sample_tree))) /\
  discover (js "src") sample_tree
  = [js "src/a.js"; js "src/lib/b.js"; js "src/z.js"].
Proof.
  split; [split; reflexivity|]. split.
  - exact (proj1 (@walk_discovers_js_files_outside_excluded
                    sample_world sample_tree eq_refl eq_refl)).
  - vm_compute. reflexivity.
Defined.

(** C6. The process ends with status 0 exactly when the run gets as far
    as writing the report, which does not depend on whether the reviews
    of the files resolve or throw; in every other case it ends with
    status 1, through [process.exit(1)].  When the root directory is
    missing, the status is not 0 and no report is written. *)
Theorem exit_status_reflects_fatal_errors_only (w : World) :
  (snd (program w) = 0%Z <-> writes_report w) /\
  (snd (program w) <> 0%Z ->
   snd (program w) = 1%Z /\ exists t, fst (program w) = t ++ [Exit 1]) /\
  (src_tree w = None ->
   snd (program w) <> 0%Z /\
   forall p data, ~ In (WriteFile p data) (fst (program w))).
Proof.
  split; [|split].
  - rewrite <- main_completes_iff. unfold program.
    destruct (main w) as [t [err|[]]]; cbn [snd]; split.
    + discriminate.
    + intros [t' H]. discriminate.
    + eauto.
    + reflexivity.
  - unfold program. destruct (main w) as [t [err|[]]]; cbn [fst snd].
    + intros _. split; [reflexivity|]. eexists.
      change (?a ++ [?x; ?y]) with (a ++ [x] ++ [y]).
      rewrite app_assoc. reflexivity.
    + intros H; contradiction H; reflexivity.
  - intros Hsrc.
    assert (Hmain : exists t err,
               main w = (t, inl err) /\
               forall p data, ~ In (WriteFile p data) t).
    { destruct (truthy (GEMINI_API_KEY w)) eqn:Ek.
      - eexists _, _. split.
        + apply main_walk_throws; [exact Ek|].
          unfold walk_src. rewrite Hsrc. rewrite bind_emit. reflexivity.
        + cbn [fst throw]. intros p data [H | []]. discriminate.
      - eexists _, _. split; [apply main_no_secret; exact Ek|].
        intros p data []. }
    destruct Hmain as (t & err & Hmain & Hnw).
    unfold program. rewrite Hmain. cbn [fst snd]. split; [discriminate|].
    intros p data Hin. apply in_app_or in Hin as [Hin | Hin].
    + exact (Hnw _ _ Hin).
    + destruct Hin as [H | [H | []]]; discriminate.
Qed.

Lemma exit_status_reflects_fatal_errors_only_witness :
  (writes_report sample_world /\
   outcome sample_world (js "src/lib/b.js")
   = inl (mkError (js "EACCES: permission denied")) /\
   snd (program sample_world) = 0%Z) /\
  (src_tree world_without_src = None /\
   snd (program world_without_src) <> 0%Z).
Proof.
  split.
  - split; [exact sample_world_writes_report|].
    split; [vm_compute; reflexivity|].
    exact (proj2 (proj1 (exit_status_reflects_fatal_errors_only sample_world))
                 sample_world_writes_report).
  - split; [reflexivity|].
    exact (proj1 (proj2 (proj2 (exit_status_reflects_fatal_errors_only
                                  world_without_src)) eq_refl)).
Defined.

Lemma extracted_shape (p feedback : jsstring) :
  extracted p feedback = [] \/
  exists table, extracted p feedback = [subheading p ++ table ++ [LF]].
Proof.
  unfold extracted, record_feedback, subheading.
  destruct (negb _); [|left; reflexivity].
  destruct (str_match _ _) as [[|c m]|]; cbn [resumoProblemas app];
    [left; reflexivity | right | left; reflexivity].
  exists (trim (c :: m)). rewrite <- !app_assoc. reflexivity.
Qed.

(** [join] puts the separator between the parts and nowhere else: with
    one more separator at the end, the result is every part followed by
    the separator. *)
Lemma join_separated (sep : jsstring) (parts : list jsstring) :
  parts <> [] ->
  join sep parts ++ sep = flat_map (fun part => part ++ sep) parts.
Proof.
  induction parts as [|part rest IH]; intros Hne; [contradiction|].
  destruct rest as [|part' rest].
  - cbn [join flat_map]. rewrite app_nil_r. reflexivity.
  - change (join sep (part :: part' :: rest))
      with (part ++ sep ++ join sep (part' :: rest)).
    change (flat_map (fun q => q ++ sep) (part :: part' :: rest))
      with ((part ++ sep) ++ flat_map (fun q => q ++ sep) (part' :: rest)).
    rewrite <- IH by discriminate. rewrite <- !app_assoc. reflexivity.
Qed.

Lemma entries_for_shape (w : World) (p : jsstring) :
  entries_for w p = [] \/
  exists table, entries_for w p = [subheading p ++ table ++ [LF]].
Proof.
  unfold entries_for.
  destruct (outcome w p) as [err|[feedback|]];
    [left; reflexivity | apply extracted_shape | left; reflexivity].
Qed.

(** C7. The report of a completed run ends with one summary section
    after the rule: under the heading, the placeholder line when no
    entry was extracted, as is the case when no file was discovered,
    and otherwise the introduction followed by the entries extracted
    from the files, every one of them, in the order in which the files
    were processed, each ended by a line break that also separates it
    from the next.  A file contributes at most one entry, which opens
    with the sub-heading that names the file. *)
Theorem summary_section_lists_entries_in_file_order
  (w : World) (t : list event) (u : unit) :
  main w = (t, inr u) ->
  exists tw files t' summary,
    walk_src w [] = (tw, inr files) /\
    t = t' ++ [WriteFile report_path
                 (title ++ flat_map (section_for w) files ++ rule
                  ++ summary_heading ++ summary)] /\
    match flat_map (entries_for w) files with
    | [] => summary = summary_placeholder
    | _ :: _ =>
        exists listing,
          summary = summary_intro ++ listing /\
          listing = join [LF] (flat_map (entries_for w) files) /\
          listing ++ [LF]
          = flat_map (fun entry => entry ++ [LF])
                     (flat_map (entries_for w) files)
    end /\
    (forall p,
        entries_for w p = [] \/
        exists table, entries_for w p = [subheading p ++ table ++ [LF]]) /\
    (files = [] -> flat_map (entries_for w) files = []).
Proof.
  intros H. apply main_completes_inv in H as (tw & files & Hw & ->).
  exists tw, files, (tw ++ middle w files),
    match flat_map (entries_for w) files with
    | [] => summary_placeholder
    | _ :: _ => summary_intro ++ join [LF] (flat_map (entries_for w) files)
    end.
  split; [exact Hw|]. split; [|split; [|split]].
  - unfold report_of. rewrite tabelaGeral_cases, <- !app_assoc. reflexivity.
  - destruct (flat_map (entries_for w) files) as [|e es] eqn:E;
      [reflexivity|].
    exists (join [LF] (e :: es)). split; [reflexivity|].
    split; [reflexivity|]. apply join_separated. discriminate.
  - apply entries_for_shape.
  - intros ->. reflexivity.
Qed.

Lemma summary_section_lists_entries_in_file_order_witness :
  (main sample_world = (fst (main sample_world), inr tt) /\
   length (flat_map (entries_for sample_world)
                    [js "src/a.js"; js "src/lib/b.js"; js "src/z.js"]) = 2%nat) /\
  exists tw files t' summary,
    walk_src sample_world [] = (tw, inr files) /\
    fst (main sample_world)
    = t' ++ [WriteFile report_path
               (title ++ flat_map (section_for sample_world) files ++ rule
                ++ summary_heading ++ summary)] /\
    match flat_map (entries_for sample_world) files with
    | [] => summary = summary_placeholder
    | _ :: _ =>
        exists listing,
          summary = summary_intro ++ listing /\
          listing = join [LF] (flat_map (entries_for sample_world) files) /\
          listing ++ [LF]
          = flat_map (fun entry => entry ++ [LF])
                     (flat_map (entries_for sample_world) files)
    end /\
    (forall p,
        entries_for sample_world p = [] \/
        exists table,
          entries_for sample_world p = [subheading p ++ table ++ [LF]]) /\
    (files = [] -> flat_map (entries_for sample_world) files = []).
Proof.
  assert (H : main sample_world = (fst (main sample_world), inr tt))
    by (vm_compute; reflexivity).
  split; [split; [exact H | vm_compute; reflexivity]|].
  exact (summary_section_lists_entries_in_file_order sample_world H).
Defined.

(** The summary the sample run writes: the two entries, of the first
    and of the third file, with a line break between them. *)
Example summary_of_the_sample_run :
  tabelaGeral (flat_map (entries_for sample_world)
                        [js "src/a.js"; js "src/lib/b.js"; js "src/z.js"])
  = js "## 📊 Resumo de Problemas por Arquivo" ++ [LF; LF]
    ++ js "Este é o resumo de problemas extraídos automaticamente do feedback detalhado de cada arquivo. Use-o para priorizar correções:" ++ [LF; LF]
    ++ js "### Resumo do Arquivo: `src/a.js`" ++ [LF]
    ++ js "| Problema Principal | Local/Linha Sugerida |" ++ [LF]
    ++ js "|---|---|" ++ [LF]
    ++ js "|" ++ [LF]
    ++ [LF]
    ++ js "### Resumo do Arquivo: `src/z.js`" ++ [LF]
    ++ js "| Problema Principal | Local/Linha Sugerida |" ++ [LF]
    ++ js "|---|---|" ++ [LF]
    ++ js "|" ++ [LF].
Proof. vm_compute. reflexivity. Qed.

Lemma flat_map_ext_in {A B} (f g : A -> list B) (l : list A) :
  (forall a, In a l -> f a = g a) -> flat_map f l = flat_map g l.
Proof.
  induction l as [|a l IH]; intros H; [reflexivity|]. cbn [flat_map].
  rewrite (H a (or_introl eq_refl)), IH; [reflexivity|].
  intros b Hb. apply H. right; exact Hb.
Qed.

Lemma outcome_ext (w1 w2 : World) (p : jsstring) :
  truthy (GEMINI_API_KEY w1) = truthy (GEMINI_API_KEY w2) ->
  file_text w1 p = file_text w2 p ->
  (forall model contents, generate w1 model contents = generate w2 model contents) ->
  outcome w1 p = outcome w2 p.
Proof.
  intros Hk Hf Hg.
  unfold outcome, analyzeFile, readFileSync, generateContent.
  rewrite Hk, Hf. unfold bind, emit, lift, throw, ret.
  destruct (file_text w2 p) as [e|code]; [reflexivity|].
  destruct (negb _); [reflexivity|].
  rewrite Hg. destruct (generate w2 _ _); reflexivity.
Qed.

(** C8. The report is a function of the discovered files and of what
    reviewing them gives: two completed runs that discover the same
    sequence of files, read the same text from each of them and are
    answered by the same response function write the same report, code
    unit for code unit and hence byte for byte, whatever else differs
    around them. *)
Theorem report_is_determined_by_files_and_service
  (w1 w2 : World) (t1 t2 tw1 tw2 : list event) (u1 u2 : unit)
  (files : list jsstring) :
  main w1 = (t1, inr u1) ->
  main w2 = (t2, inr u2) ->
  walk_src w1 [] = (tw1, inr files) ->
  walk_src w2 [] = (tw2, inr files) ->
  (forall p, In p files -> file_text w1 p = file_text w2 p) ->
  (forall model contents,
      generate w1 model contents = generate w2 model contents) ->
  exists t1' t2' data,
    t1 = t1' ++ [WriteFile report_path data] /\
    t2 = t2' ++ [WriteFile report_path data].
Proof.
  intros H1 H2 Hw1 Hw2 Hf Hg.
  assert (Hk : truthy (GEMINI_API_KEY w1) = truthy (GEMINI_API_KEY w2)).
  { destruct u1, u2.
    destruct (proj1 (main_completes_iff w1) (ex_intro _ t1 H1)) as [-> _].
    destruct (proj1 (main_completes_iff w2) (ex_intro _ t2 H2)) as [-> _].
    reflexivity. }
  apply main_completes_inv in H1 as (tw1' & files1 & Hw1' & ->).
  apply main_completes_inv in H2 as (tw2' & files2 & Hw2' & ->).
  rewrite Hw1 in Hw1'. rewrite Hw2 in Hw2'.
  inversion Hw1'; inversion Hw2'; subst files1 files2 tw1' tw2'.
  exists (tw1 ++ middle w1 files), (tw2 ++ middle w2 files), (report_of w2 files).
  rewrite <- !app_assoc. split; [|reflexivity].
  do 3 f_equal. unfold report_of.
  assert (Ho : forall p, In p files -> outcome w1 p = outcome w2 p)
    by (intros p Hp; apply outcome_ext; auto).
  rewrite (flat_map_ext_in (section_for w1) (section_for w2) files),
          (flat_map_ext_in (entries_for w1) (entries_for w2) files);
    [reflexivity | |].
  - intros p Hp. unfold entries_for. rewrite (Ho p Hp). reflexivity.
  - intros p Hp. unfold section_for. rewrite (Ho p Hp). reflexivity.
Qed.

Lemma report_is_determined_by_files_and_service_witness :
  let w1 := sample_world in
  let w2 := mkWorld (Some (js "another secret")) (Some (seal sample_tree))
                    (file_text w1) (generate w1) true None None in
  let files := [js "src/a.js"; js "src/lib/b.js"; js "src/z.js"] in
  (main w1 = (fst (main w1), inr tt) /\
   main w2 = (fst (main w2), inr tt) /\
   walk_src w1 [] = (fst (walk_src w1 []), inr files) /\
   walk_src w2 [] = (fst (walk_src w2 []), inr files)) /\
  exists t1' t2' data,
    fst (main w1) = t1' ++ [WriteFile report_path data] /\
    fst (main w2) = t2' ++ [WriteFile report_path data].
Proof.
  intros w1 w2 files.
  assert (H1 : main w1 = (fst (main w1), inr tt)) by (vm_compute; reflexivity).
  assert (H2 : main w2 = (fst (main w2), inr tt)) by (vm_compute; reflexivity).
  assert (H3 : walk_src w1 [] = (fst (walk_src w1 []), inr files))
    by (vm_compute; reflexivity).
  assert (H4 : walk_src w2 [] = (fst (walk_src w2 []), inr files))
    by (vm_compute; reflexivity).
  split; [auto|].
  exact (@report_is_determined_by_files_and_service
           w1 w2 _ _ _ _ tt tt files H1 H2 H3 H4
           (fun _ _ => eq_refl) (fun _ _ => eq_refl)).
Defined.

Lemma tableStartMarker_text : tableStartMarker = js "| Problema Principal".
Proof. vm_compute. reflexivity. Qed.

(** Extraction happens only where the marker occurs. *)
Lemma entry_needs_marker (p feedback entry : jsstring) :
  In entry (extracted p feedback) -> occurs tableStartMarker feedback.
Proof.
  intros Hin.
  destruct (Z.eq_dec (indexOf feedback tableStartMarker) (-1)) as [E | E].
  - unfold extracted, record_feedback in Hin. rewrite E in Hin. destruct Hin.
  - destruct (@indexOf_from_found feedback tableStartMarker 0%Z
                ltac:(lia) E) as (pre & post & Hs & _).
    exists pre, post. exact Hs.
Qed.

(** C9, as worded, fails.  The feedback text below holds a table whose
    header line has no space after the delimiter and so does not
    contain the marker, while the sentence before the table does: the
    search for the marker runs over the whole text, finds it in the
    sentence, and the file gets a summary entry that starts there. *)
Lemma marker_outside_the_header_line_gives_an_entry :
  ~ occurs (js "| Problema Principal")
           (js "|Problema Principal|Local/Linha Sugerida|")
  /\ outcome world_with_marker_in_prose (js "src/a.js")
     = inr (Some (js "A coluna | Problema Principal resume cada ponto." ++ [LF]
                  ++ js "|Problema Principal|Local/Linha Sugerida|" ++ [LF]
                  ++ js "|---|---|" ++ [LF]
                  ++ js "|eval|3|" ++ [LF]))
  /\ snd (review_file world_with_marker_in_prose (js "src/a.js") (mkAcc [] []))
     = inr (mkAcc
              (js "## Arquivo: src/a.js" ++ [LF; LF]
               ++ js "A coluna | Problema Principal resume cada ponto." ++ [LF]
               ++ js "|Problema Principal|Local/Linha Sugerida|" ++ [LF]
               ++ js "|---|---|" ++ [LF]
               ++ js "|eval|3|" ++ [LF]
               ++ [LF; LF])
              [js "### Resumo do Arquivo: `src/a.js`" ++ [LF]
               ++ js "| Problema Principal resume cada ponto." ++ [LF]
               ++ js "|Problema Principal|Local/Linha Sugerida|" ++ [LF]
               ++ js "|---|---|" ++ [LF]
               ++ js "|" ++ [LF]]).
Proof.
  split; [|split].
  - apply indexOf_absent. vm_compute. reflexivity.
  - vm_compute. reflexivity.
  - vm_compute. reflexivity.
Qed.

(** C9, amended.  Extraction is triggered by the exact text [| Problema
    Principal] and by nothing else.  When the review of a file resolves
    with a feedback text in which that text occurs nowhere, in the
    header line of a table or elsewhere, the turn of the loop for the
    file appends the success section with the whole feedback text to the
    report and leaves the list of summary entries as it was. *)
Theorem no_marker_no_summary_entry
  (w : World) (p feedback : jsstring) (a : Acc) :
  outcome w p = inr (Some feedback) ->
  ~ occurs (js "| Problema Principal") feedback ->
  exists t,
    review_file w p a
    = (t, inr (mkAcc (report a ++ success_section p feedback)
                     (resumoProblemas a))).
Proof.
  intros Ho Hno. rewrite review_file_spec. eexists.
  unfold section_for, entries_for. rewrite Ho.
  replace (extracted p feedback) with (@nil jsstring);
    [rewrite app_nil_r; reflexivity|].
  unfold extracted, record_feedback.
  rewrite <- tableStartMarker_text in Hno.
  apply indexOf_absent in Hno. rewrite Hno. reflexivity.
Qed.

Lemma feedback_no_space_lacks_marker :
  ~ occurs (js "| Problema Principal") feedback_no_space.
Proof. apply indexOf_absent. vm_compute. reflexivity. Qed.

Lemma feedback_other_title_lacks_marker :
  ~ occurs (js "| Problema Principal") feedback_other_title.
Proof. apply indexOf_absent. vm_compute. reflexivity. Qed.

Lemma no_marker_no_summary_entry_witness :
  let w := mkWorld (Some (js "secret")) (Some sample_tree)
                   (fun _ => inr (js "let x;"))
                   (fun _ _ => inr (Some feedback_no_space)) true None None in
  let p := js "src/a.js" in
  let a := mkAcc title [] in
  (outcome w p = inr (Some feedback_no_space) /\
   ~ occurs (js "| Problema Principal") feedback_no_space) /\
  exists t,
    review_file w p a
    = (t, inr (mkAcc (report a ++ success_section p feedback_no_space)
                     (resumoProblemas a))).
Proof.
  intros w p a.
  assert (Ho : outcome w p = inr (Some feedback_no_space))
    by (vm_compute; reflexivity).
  split; [split; [exact Ho | exact feedback_no_space_lacks_marker]|].
  exact (@no_marker_no_summary_entry w p feedback_no_space a Ho
           feedback_no_space_lacks_marker).
Defined.

(** The two variations the marker does not match: a header without the
    space after the delimiter, and a title with another spelling. *)
Example no_entry_without_space (p : jsstring) :
  extracted p feedback_no_space = [].
Proof. vm_compute. reflexivity. Qed.

Example no_entry_with_other_title (p : jsstring) :
  extracted p feedback_other_title = [].
Proof. vm_compute. reflexivity. Qed.

(** C10. Whenever the run gets as far as writing, the report it writes
    begins with the title line and ends with the rule followed by the
    one summary section, which opens with its heading; between the two
    stand the sections of the files.  With no file discovered the report
    is written all the same, and is the title, the rule, the heading and
    the placeholder line. *)
Theorem report_is_framed_by_title_and_summary (w : World) :
  writes_report w ->
  exists t files body summary,
    main w
    = (t ++ [WriteFile report_path
               (js "# Relatório de Revisão AI – Gemini" ++ [LF; LF]
                ++ body
                ++ [LF] ++ js "---" ++ [LF; LF]
                ++ js "## 📊 Resumo de Problemas por Arquivo" ++ [LF; LF]
                ++ summary)],
       inr tt) /\
    (exists tw, walk_src w [] = (tw, inr files)) /\
    (files = [] ->
     body = [] /\
     summary = js "Nenhum arquivo JavaScript encontrado para análise ou não foi possível extrair os resumos das tabelas." ++ [LF; LF]).
Proof.
  intros (Ek & (tw & files & Hw) & Hdir & Hwr).
  exists (tw ++ middle w files), files, (flat_map (section_for w) files),
    match flat_map (entries_for w) files with
    | [] => summary_placeholder
    | _ :: _ => summary_intro ++ join [LF] (flat_map (entries_for w) files)
    end.
  split; [|split; [eauto|]].
  - rewrite (main_reaches_write w Ek Hw Hdir), Hwr.
    unfold report_of. rewrite tabelaGeral_cases.
    unfold title, rule, summary_heading. rewrite <- !app_assoc. reflexivity.
  - intros ->. split; reflexivity.
Qed.

Lemma world_without_files_writes_report : writes_report world_without_files.
Proof.
  unfold writes_report. split; [reflexivity|]. split.
  - eexists _, _. vm_compute. reflexivity.
  - split; [left|]; reflexivity.
Defined.

Lemma report_is_framed_by_title_and_summary_witness :
  writes_report world_without_files /\
  exists t files body summary,
    main world_without_files
    = (t ++ [WriteFile report_path
               (js "# Relatório de Revisão AI – Gemini" ++ [LF; LF]
                ++ body
                ++ [LF] ++ js "---" ++ [LF; LF]
                ++ js "## 📊 Resumo de Problemas por Arquivo" ++ [LF; LF]
                ++ summary)],
       inr tt) /\
    (exists tw, walk_src world_without_files [] = (tw, inr files)) /\
    (files = [] ->
     body = [] /\
     summary = js "Nenhum arquivo JavaScript encontrado para análise ou não foi possível extrair os resumos das tabelas." ++ [LF; LF]).
Proof.
  split; [exact world_without_files_writes_report|].
  exact (report_is_framed_by_title_and_summary
           world_without_files_writes_report).
Defined.

(* ================================================================== *)
(** ** Further properties: the effects of the script *)

Lemma reads_app (t1 t2 : list event) : reads (t1 ++ t2) = reads t1 ++ reads t2.
Proof. apply flat_map_app. Qed.

Lemma calls_app (t1 t2 : list event) : calls (t1 ++ t2) = calls t1 ++ calls t2.
Proof. apply flat_map_app. Qed.

Lemma writes_app (t1 t2 : list event) :
  writes (t1 ++ t2) = writes t1 ++ writes t2.
Proof. apply flat_map_app. Qed.

Lemma listing_is_silent (t : list event) :
  Forall (fun e => is_listing e = true) t ->
  reads t = [] /\ calls t = [] /\ writes t = [] /\
  Forall (fun e => is_work e = true) t.
Proof.
  induction 1 as [|e t He _ (Hr & Hc & Hw & Hk)]; [repeat split; constructor|].
  destruct e; try discriminate He; cbn [reads calls writes flat_map app];
    fold (reads t); fold (calls t); fold (writes t);
    repeat split; auto.
Qed.

Lemma bind_trace {A B} (m : M A) (k : A -> M B) (P : event -> Prop) :
  Forall P (fst m) ->
  (forall a, Forall P (fst (k a))) ->
  Forall P (fst (bind m k)).
Proof.
  intros Hm Hk. unfold bind. destruct m as [t1 [e|a]]; [exact Hm|].
  specialize (Hk a). destruct (k a) as [t2 r]. cbn [fst] in *.
  apply Forall_app; auto.
Qed.

(** The walk only lists directories and inspects their entries. *)
Lemma walk_trace_listing (d : node) :
  forall dir acc, Forall (fun e => is_listing e = true) (fst (walk dir d acc)).
Proof.
  induction d as [| err | err | files IH] using node_nested_ind; intros dir acc;
    cbn [walk]; rewrite bind_emit; cbn [fst]; constructor;
    try reflexivity; try (unfold throw; constructor).
  revert acc. induction IH as [| [f child] rest Hc _ IHrest]; intros acc.
  - cbn [walk_loop]. unfold ret. constructor.
  - cbn [walk_loop]. apply bind_trace.
    + rewrite stat_trace. constructor; [reflexivity | constructor].
    + intros [|].
      * destruct (excluded f); [apply IHrest|].
        apply bind_trace; [apply Hc | intros a; apply IHrest].
      * destruct (endsWith _ _); apply IHrest.
Qed.

Lemma walk_src_trace_listing (w : World) (acc : list jsstring) :
  Forall (fun e => is_listing e = true) (fst (walk_src w acc)).
Proof.
  unfold walk_src. destruct (src_tree w); [apply walk_trace_listing|].
  rewrite bind_emit. cbn [fst]. constructor; [reflexivity|].
  unfold throw. constructor.
Qed.

(** What [analyzeFile] does, case by case. *)
Lemma analyzeFile_cases (w : World) (p : jsstring) :
  analyzeFile w p
  = match file_text w p with
    | inl err => ([ReadFile p], inl err)
    | inr code =>
        if truthy (GEMINI_API_KEY w) then
          ([ReadFile p; GenerateContent model_name (trim (prompt_template code))],
           match generate w model_name (trim (prompt_template code)) with
           | inl err => inl err
           | inr text => inr (mkFeedback text p)
           end)
        else
          ([ReadFile p],
           inl (mkError (js "403 PERMISSION_DENIED: API Key não está definida. A chave deve ser injetada pelo GitHub Secrets.")))
    end.
Proof.
  unfold analyzeFile, readFileSync, generateContent.
  unfold bind, emit, lift, throw, ret.
  destruct (file_text w p) as [e|code]; [reflexivity|].
  destruct (truthy (GEMINI_API_KEY w)); cbn [negb app]; [|reflexivity].
  destruct (generate w model_name _); reflexivity.
Qed.

(** X1. [analyzeFile] reads the file it is given and nothing else,
    writes nothing, and calls the service at most once, after the read:
    it sends one request, to the fixed model and with the prompt built
    from the text of that file, exactly when the file could be read and
    the secret is set, and none in every other case.  A file that cannot
    be read is never sent, and the error of the read is the error of the
    review. *)
Theorem analyzeFile_reads_once_and_calls_at_most_once (w : World) (p : jsstring) :
  reads (fst (analyzeFile w p)) = [p] /\
  writes (fst (analyzeFile w p)) = [] /\
  calls (fst (analyzeFile w p))
  = match file_text w p with
    | inr code =>
        if truthy (GEMINI_API_KEY w)
        then [(js "gemini-2.5-flash", trim (prompt_template code))]
        else []
    | inl _ => []
    end /\
  fst (analyzeFile w p)
  = ReadFile p
    :: map (fun mc => GenerateContent (fst mc) (snd mc))
           (calls (fst (analyzeFile w p))) /\
  (forall err, file_text w p = inl err ->
               analyzeFile w p = ([ReadFile p], inl err)).
Proof.
  rewrite analyzeFile_cases.
  destruct (file_text w p) as [e|code].
  - cbn [fst]. split; [reflexivity|]. split; [reflexivity|].
    split; [reflexivity|]. split; [reflexivity|].
    intros err H; inversion H; reflexivity.
  - destruct (truthy (GEMINI_API_KEY w)); cbn [fst];
      (split; [reflexivity|]); (split; [reflexivity|]);
      (split; [reflexivity|]); (split; [reflexivity | discriminate]).
Qed.

(** The three ways [analyzeFile] goes, on the sample inputs: a file
    that is reviewed, a file that cannot be read, and a missing
    secret. *)
Example analyzeFile_calls_on_the_samples :
  calls (fst (analyzeFile sample_world (js "src/a.js")))
  = [(js "gemini-2.5-flash", trim (prompt_template (js "export default 1;")))]
  /\ calls (fst (analyzeFile sample_world (js "src/lib/b.js"))) = []
  /\ calls (fst (analyzeFile world_without_secret (js "src/a.js"))) = [].
Proof. split; [|split]; vm_compute; reflexivity. Qed.

Lemma prompt_template_parts (code : jsstring) :
  prompt_template code
  = [LF] ++ prompt_head ++ (code ++ [LF]) ++ js "```" ++ [LF] ++ js "  ".
Proof.
  unfold prompt_template, prompt_head.
  repeat rewrite <- app_assoc. reflexivity.
Qed.

Lemma trim_fenced (c : code_unit) (h mid : jsstring) :
  isWhiteSpace c = false ->
  trim ([LF] ++ (c :: h) ++ mid ++ js "```" ++ [LF] ++ js "  ")
  = (c :: h) ++ mid ++ js "```".
Proof.
  intros Hc. change (js "```") with [96; 96; 96]%N.
  change (js "  ") with [32; 32]%N.
  unfold trim. cbn [app trimStart].
  change (isWhiteSpace LF) with true. cbn iota. rewrite Hc.
  unfold trimEnd.
  assert (E : forall X : jsstring,
             c :: h ++ mid ++ X = (c :: h ++ mid) ++ X)
    by (intros X; cbn [app]; rewrite <- app_assoc; reflexivity).
  rewrite !E. set (body := c :: h ++ mid).
  rewrite rev_app_distr. cbn [rev app trimStart].
  change (isWhiteSpace 32%N) with true. change (isWhiteSpace LF) with true.
  change (isWhiteSpace 96%N) with false. cbn iota. cbn [rev].
  rewrite rev_involutive, <- !app_assoc. reflexivity.
Qed.

(** X2. The prompt sent for a file is the fixed instructions, the text
    of the file as it is, a line break and the closing fence: [trim]
    removes the line break that opens the template and the blanks that
    close it, and never touches the code, whatever white space the code
    begins or ends with. *)
Theorem prompt_holds_the_code_verbatim (code : jsstring) :
  trim (prompt_template code) = prompt_head ++ code ++ [LF] ++ js "```".
Proof.
  rewrite prompt_template_parts.
  assert (H : prompt_head = @cons code_unit 86%N (tl prompt_head))
    by (vm_compute; reflexivity).
  rewrite H at 1. rewrite trim_fenced by reflexivity.
  rewrite <- H, <- app_assoc. reflexivity.
Qed.

(* ================================================================== *)
(** ** Further properties: discovery *)

(** X3. [walk] returns exactly on the trees in which every entry of a
    directory that is listed can be inspected and every directory, the
    excluded ones apart, can be listed, and then it has appended the
    listing to the files pushed before, which it keeps in place; on any
    other tree it throws: at the first entry [statSync] fails on, a
    dangling link for one, or at the first directory [readdirSync] fails
    on. *)
Theorem walk_returns_iff_listable (dir : jsstring) (d : node)
        (acc : list jsstring) :
  (listable d = true ->
   exists t, walk dir d acc = (t, inr (acc ++ discover dir d))) /\
  (listable d = false ->
   exists t err, walk dir d acc = (t, inl err)).
Proof.
  split.
  - apply walk_listable.
  - intros Hl. destruct (walk dir d acc) as [t [err|out]] eqn:E; [eauto|].
    apply walk_returns in E as [_ E]. congruence.
Qed.

Lemma walk_returns_iff_listable_witness :
  (listable sample_tree = true /\
   exists t, walk (js "src") sample_tree [js "index.js"]
             = (t, inr ([js "index.js"] ++ discover (js "src") sample_tree))) /\
  (listable (Dir [(js "lib", LockedDir (mkError (js "EACCES")))]) = false /\
   exists t err,
     walk (js "src") (Dir [(js "lib", LockedDir (mkError (js "EACCES")))]) []
     = (t, inl err)) /\
  (listable (Dir [(js "a.js", File);
                  (js "link.js", Broken (mkError (js "ENOENT")))]) = false /\
   exists t err,
     walk (js "src") (Dir [(js "a.js", File);
                           (js "link.js", Broken (mkError (js "ENOENT")))]) []
     = (t, inl err)).
Proof.
  split; [|split]; (split; [reflexivity|]).
  - exact (proj1 (walk_returns_iff_listable (js "src") sample_tree
                    [js "index.js"]) eq_refl).
  - exact (proj2 (walk_returns_iff_listable (js "src")
                    (Dir [(js "lib", LockedDir (mkError (js "EACCES")))]) [])
                 eq_refl).
  - exact (proj2 (walk_returns_iff_listable (js "src")
                    (Dir [(js "a.js", File);
                          (js "link.js", Broken (mkError (js "ENOENT")))]) [])
                 eq_refl).
Defined.

(** A dangling link aborts the walk where [statSync] meets it: the
    file before it has been inspected, nothing after it is. *)
Example walk_stops_at_a_dangling_link :
  walk (js "src")
       (Dir [(js "a.js", File);
             (js "link.js", Broken (mkError (js "ENOENT")));
             (js "z.js", File)]) []
  = ([ReadDir (js "src"); Stat (js "src/a.js"); Stat (js "src/link.js")],
     inl (mkError (js "ENOENT"))).
Proof. vm_compute. reflexivity. Qed.

(** X4. Whether it returns or throws, [walk] has no effect but listing
    directories and inspecting their entries, beginning with the listing
    of the directory it is called on: it reads no file, calls no
    service and writes nothing. *)
Theorem walk_only_lists_and_stats (dir : jsstring) (d : node)
        (acc : list jsstring) :
  (exists t, fst (walk dir d acc) = ReadDir dir :: t) /\
  Forall (fun e => is_listing e = true) (fst (walk dir d acc)) /\
  reads (fst (walk dir d acc)) = [] /\
  calls (fst (walk dir d acc)) = [] /\
  writes (fst (walk dir d acc)) = [].
Proof.
  split; [|split].
  - destruct d; cbn [walk]; rewrite bind_emit; cbn [fst]; eauto.
  - apply walk_trace_listing.
  - destruct (listing_is_silent (walk_trace_listing d dir acc))
      as (Hr & Hc & Hw & _). auto.
Qed.

Lemma path_below (l : list jsstring) :
  forall dir, l <> [] ->
              exists rest, fold_left path_join l dir = dir ++ [SLASH] ++ rest.
Proof.
  induction l as [|g l IH]; intros dir Hl; [contradiction|].
  cbn [fold_left]. destruct l as [|g' l].
  - exists g. reflexivity.
  - destruct (IH (path_join dir g) ltac:(discriminate)) as [rest ->].
    exists (g ++ [SLASH] ++ rest). unfold path_join.
    change (js "/") with [SLASH]. rewrite <- !app_assoc. reflexivity.
Qed.

Lemma discover_below (d : node) (dir p : jsstring) :
  In p (discover dir d) ->
  (exists rest, p = dir ++ [SLASH] ++ rest) /\ endsWith p (js ".js") = true.
Proof.
  intros H. apply discover_located in H as (chain & f & _ & _ & Hext & ->).
  unfold path_of. split.
  - apply path_below. destruct chain; discriminate.
  - rewrite fold_left_app. cbn [fold_left].
    rewrite endsWith_path_join. exact Hext.
Qed.

(** X5. Every file that discovery returns lies below the root, its path
    beginning with [src/], and carries the extension: nothing outside
    the source tree and nothing but [.js] files is ever reviewed. *)
Theorem discovered_files_are_js_files_below_src
  (w : World) (t : list event) (files : list jsstring) :
  walk_src w [] = (t, inr files) ->
  forall p, In p files ->
            startsWith p (js "src/") = true /\ endsWith p (js ".js") = true.
Proof.
  unfold walk_src. destruct (src_tree w) as [d|].
  - intros H p Hp. apply walk_returns in H as [-> _]. cbn [app] in Hp.
    apply discover_below in Hp as [[rest ->] Hext]. split; [|exact Hext].
    apply startsWith_iff. exists rest.
    change (js "src/") with (js "src" ++ [SLASH]).
    rewrite <- app_assoc. reflexivity.
  - rewrite bind_emit. intros H. inversion H.
Qed.

Lemma discovered_files_are_js_files_below_src_witness :
  walk_src sample_world []
  = (fst (walk_src sample_world []),
     inr [js "src/a.js"; js "src/lib/b.js"; js "src/z.js"]) /\
  startsWith (js "src/lib/b.js") (js "src/") = true /\
  endsWith (js "src/lib/b.js") (js ".js") = true.
Proof.
  assert (H : walk_src sample_world []
              = (fst (walk_src sample_world []),
                 inr [js "src/a.js"; js "src/lib/b.js"; js "src/z.js"]))
    by (vm_compute; reflexivity).
  split; [exact H|].
  exact (discovered_files_are_js_files_below_src sample_world H
           (js "src/lib/b.js") (or_intror (or_introl eq_refl))).
Defined.

Lemma distinct_NoDup (l : list jsstring) : distinct l = true -> NoDup l.
Proof.
  induction l as [|x l IH]; cbn [distinct]; [constructor|].
  intros H. apply andb_true_iff in H as [Hx Hl].
  constructor; [|auto].
  intros Hin. apply negb_true_iff in Hx.
  assert (E : existsb (str_eqb x) l = true)
    by (apply existsb_exists; exists x; split; [exact Hin | apply str_eqb_refl]).
  congruence.
Qed.

(** Two names without separator that are followed by nothing or by a
    separator in the same text are the same name. *)
Lemma same_entry (f1 f2 tail1 tail2 : jsstring) :
  slash_free f1 = true -> slash_free f2 = true ->
  (tail1 = [] \/ exists r, tail1 = SLASH :: r) ->
  (tail2 = [] \/ exists r, tail2 = SLASH :: r) ->
  f1 ++ tail1 = f2 ++ tail2 -> f1 = f2.
Proof.
  revert f2; induction f1 as [|c f1 IH]; intros [|c' f2] H1 H2 T1 T2 E;
    cbn [app slash_free forallb] in *.
  - reflexivity.
  - apply andb_true_iff in H2 as [Hc _].
    destruct T1 as [-> | [r ->]]; [discriminate|].
    inversion E; subst. rewrite N.eqb_refl in Hc. discriminate.
  - apply andb_true_iff in H1 as [Hc _].
    destruct T2 as [-> | [r ->]]; [discriminate|].
    inversion E; subst. rewrite N.eqb_refl in Hc. discriminate.
  - apply andb_true_iff in H1 as [_ H1]. apply andb_true_iff in H2 as [_ H2].
    inversion E; subst. f_equal. eapply IH; eauto.
Qed.

Lemma NoDup_flat_map_owned {A B} (g : A -> list B) (owner : A -> B -> Prop)
      (l : list A) :
  NoDup l ->
  (forall a, In a l -> NoDup (g a)) ->
  (forall a b, In a l -> In b (g a) -> owner a b) ->
  (forall a1 a2 b, In a1 l -> In a2 l -> owner a1 b -> owner a2 b -> a1 = a2) ->
  NoDup (flat_map g l).
Proof.
  induction 1 as [|a l Ha Hl IH]; intros Hg Hown Hsep; [constructor|].
  cbn [flat_map]. apply NoDup_app.
  - apply Hg. left; reflexivity.
  - apply IH.
    + intros a' H'. apply Hg. right; exact H'.
    + intros a' b H' Hb. apply Hown; [right; exact H' | exact Hb].
    + intros a1 a2 b H1 H2. apply Hsep; right; assumption.
  - intros b Hb Hb'. apply in_flat_map in Hb' as (a' & Ha' & Hb').
    assert (a = a').
    { apply (Hsep a a' b); [left; reflexivity | right; exact Ha' | |].
      - apply Hown; [left; reflexivity | exact Hb].
      - apply Hown; [right; exact Ha' | exact Hb']. }
    subst a'. contradiction.
Qed.

Lemma NoDup_map_fst {A B} (l : list (A * B)) : NoDup (map fst l) -> NoDup l.
Proof.
  induction l as [|[a b] l IH]; cbn [map fst]; intros H; [constructor|].
  inversion H as [|? ? Hn Hl]; subst. constructor; [|auto].
  intros Hin. apply Hn. apply (in_map fst) in Hin. exact Hin.
Qed.

Lemma discover_NoDup (d : node) :
  forall dir, well_named d = true -> NoDup (discover dir d).
Proof.
  induction d as [| err | err | files IH] using node_nested_ind; intros dir Hw;
    try constructor.
  cbn [well_named discover] in *. apply andb_true_iff in Hw as [Hall Hd].
  apply distinct_NoDup in Hd.
  rewrite forallb_forall in Hall. rewrite Forall_forall in IH.
  apply (NoDup_flat_map_owned _
           (fun fc p => exists tail,
                p = dir ++ [SLASH] ++ fst fc ++ tail /\
                (tail = [] \/ exists r, tail = SLASH :: r))).
  - apply NoDup_map_fst. exact Hd.
  - intros [f child] Hin. cbn [fst snd].
    specialize (Hall _ Hin). cbn [fst snd] in Hall.
    apply andb_true_iff in Hall as [_ Hwc].
    destruct (isDirectory child).
    + destruct (excluded f); [constructor|]. apply (IH _ Hin). exact Hwc.
    + destruct (endsWith f (js ".js")); repeat constructor. intros [].
  - intros [f child] p Hin Hp. cbn [fst snd] in *.
    destruct (isDirectory child).
    + destruct (excluded f); [destruct Hp|].
      apply discover_below in Hp as [[rest ->] _].
      exists ([SLASH] ++ rest). split; [|right; exists rest; reflexivity].
      unfold path_join. change (js "/") with [SLASH].
      rewrite <- !app_assoc. reflexivity.
    + destruct (endsWith f (js ".js")); [|destruct Hp].
      destruct Hp as [<- | []]. exists []. split; [|left; reflexivity].
      unfold path_join. change (js "/") with [SLASH].
      rewrite app_nil_r. reflexivity.
  - intros [f1 c1] [f2 c2] p H1 H2 (t1 & E1 & T1) (t2 & E2 & T2).
    cbn [fst] in *. rewrite E1 in E2.
    apply app_inv_head in E2. apply app_inv_head in E2.
    assert (Hs1 := Hall _ H1). assert (Hs2 := Hall _ H2). cbn [fst snd] in *.
    apply andb_true_iff in Hs1 as [Hs1 _]. apply andb_true_iff in Hs2 as [Hs2 _].
    assert (f1 = f2) by exact (same_entry f1 f2 Hs1 Hs2 T1 T2 E2). subst f2.
    f_equal. clear - Hd H1 H2.
    induction files as [|[g c] files IHf]; [destruct H1|].
    cbn [map fst] in Hd. inversion Hd as [|? ? Hn Hl]; subst.
    destruct H1 as [E1 | H1], H2 as [E2 | H2].
    + congruence.
    + inversion E1; subst. exfalso. apply Hn.
      apply (in_map fst) in H2. exact H2.
    + inversion E2; subst. exfalso. apply Hn.
      apply (in_map fst) in H1. exact H1.
    + auto.
Qed.

(** X6. On a tree as a file system has it, where no name holds the
    separator and no directory holds two entries of the same name,
    discovery returns no path twice: no file is reviewed more than
    once in a run. *)
Theorem discovery_returns_no_file_twice
  (dir : jsstring) (d : node) (t : list event) (files : list jsstring) :
  well_named d = true ->
  walk dir d [] = (t, inr files) ->
  NoDup files.
Proof.
  intros Hw H. apply walk_returns in H as [-> _]. cbn [app].
  apply discover_NoDup. exact Hw.
Qed.

Lemma discovery_returns_no_file_twice_witness :
  (well_named sample_tree = true /\
   walk (js "src") sample_tree []
   = (fst (walk (js "src") sample_tree []),
      inr [js "src/a.js"; js "src/lib/b.js"; js "src/z.js"])) /\
  NoDup [js "src/a.js"; js "src/lib/b.js"; js "src/z.js"].
Proof.
  assert (H : walk (js "src") sample_tree []
              = (fst (walk (js "src") sample_tree []),
                 inr [js "src/a.js"; js "src/lib/b.js"; js "src/z.js"]))
    by (vm_compute; reflexivity).
  split; [split; [reflexivity | exact H]|].
  exact (@discovery_returns_no_file_twice
           (js "src") sample_tree _ _ eq_refl H).
Defined.

(* ================================================================== *)
(** ** Further properties: the run as a whole *)

Lemma analyzeFile_effects (w : World) (p : jsstring) :
  reads (fst (analyzeFile w p)) = [p] /\
  writes (fst (analyzeFile w p)) = [] /\
  (length (calls (fst (analyzeFile w p))) <= 1)%nat /\
  Forall (fun mc => fst mc = model_name) (calls (fst (analyzeFile w p))) /\
  Forall (fun e => is_work e = true) (fst (analyzeFile w p)) /\
  (forall q, ~ In (MkDir q) (fst (analyzeFile w p))).
Proof.
  rewrite analyzeFile_cases.
  destruct (file_text w p) as [e|code];
    [| destruct (truthy (GEMINI_API_KEY w))]; cbn [fst];
    cbn [reads calls writes flat_map app length];
    repeat split; auto; try (repeat constructor; fail).
  all: intros q H; repeat (destruct H as [H | H]; [discriminate|]); exact H.
Qed.

Lemma reviews_effects (w : World) (files : list jsstring) :
  let t := flat_map (fun p => fst (analyzeFile w p)) files in
  reads t = files /\
  writes t = [] /\
  (length (calls t) <= length files)%nat /\
  Forall (fun mc => fst mc = model_name) (calls t) /\
  Forall (fun e => is_work e = true) t /\
  (forall q, ~ In (MkDir q) t).
Proof.
  induction files as [|p files (Hr & Hw & Hc & Hm & Hk & Hd)]; cbn zeta.
  - repeat split; auto.
  - cbn [flat_map]. rewrite reads_app, writes_app, calls_app, length_app.
    destruct (analyzeFile_effects w p) as (Hr1 & Hw1 & Hc1 & Hm1 & Hk1 & Hd1).
    cbn zeta in *. rewrite Hr1, Hw1, Hr, Hw. cbn [app length].
    repeat split; auto.
    + lia.
    + apply Forall_app; auto.
    + apply Forall_app; auto.
    + intros q H. apply in_app_or in H as [H | H];
        [exact (Hd1 q H) | exact (Hd q H)].
Qed.

Lemma middle_effects (w : World) (files : list jsstring) :
  reads (middle w files) = files /\
  writes (middle w files) = [] /\
  (length (calls (middle w files)) <= length files)%nat /\
  Forall (fun mc => fst mc = model_name) (calls (middle w files)) /\
  Forall (fun e => is_work e = true) (middle w files).
Proof.
  destruct (reviews_effects w files) as (Hr & Hw & Hc & Hm & Hk & _).
  cbn zeta in *. unfold middle.
  change (Exists (js "reports")
          :: (if reports_exists w then [] else [MkDir (js "reports")])
          ++ flat_map (fun p => fst (analyzeFile w p)) files)
    with ([Exists (js "reports")]
          ++ (if reports_exists w then [] else [MkDir (js "reports")])
          ++ flat_map (fun p => fst (analyzeFile w p)) files).
  rewrite !reads_app, !writes_app, !calls_app.
  destruct (reports_exists w); cbn [reads writes calls flat_map app];
    repeat split; auto; repeat (constructor; [reflexivity|]); exact Hk.
Qed.

(** The four ways a run of [main] goes. *)
Lemma main_cases (w : World) :
  (truthy (GEMINI_API_KEY w) = false /\
   main w = ([], inl (mkError (js "GEMINI_API_KEY não encontrada. Abortando análise."))))
  \/ (exists tw err,
        truthy (GEMINI_API_KEY w) = true /\
        walk_src w [] = (tw, inl err) /\ main w = (tw, inl err))
  \/ (exists tw files err,
        truthy (GEMINI_API_KEY w) = true /\
        walk_src w [] = (tw, inr files) /\
        reports_exists w = false /\ mkdir_error w = Some err /\
        main w = (tw ++ [Exists (js "reports"); MkDir (js "reports")], inl err))
  \/ (exists tw files,
        truthy (GEMINI_API_KEY w) = true /\
        walk_src w [] = (tw, inr files) /\
        (reports_exists w = true \/ mkdir_error w = None) /\
        main w
        = (tw ++ middle w files
              ++ [WriteFile report_path (report_of w files)],
           match write_error w with
           | Some err => inl err
           | None => inr tt
           end)).
Proof.
  destruct (truthy (GEMINI_API_KEY w)) eqn:Ek;
    [| left; split; [reflexivity | apply main_no_secret; exact Ek]].
  right. destruct (walk_src w []) as [tw [err|files]] eqn:Ew.
  - left. exists tw, err. split; [reflexivity|]. split; [reflexivity|].
    apply main_walk_throws; assumption.
  - right. destruct (reports_exists w) eqn:Ex.
    + right. exists tw, files.
      split; [reflexivity|]. split; [reflexivity|]. split; [left; reflexivity|].
      exact (main_reaches_write w Ek Ew (or_introl Ex)).
    + destruct (mkdir_error w) as [err|] eqn:Em.
      * left. exists tw, files, err. repeat split.
        exact (main_mkdir_throws w Ek Ew Ex Em).
      * right. exists tw, files.
        split; [reflexivity|]. split; [reflexivity|].
        split; [right; reflexivity|].
        exact (main_reaches_write w Ek Ew (or_intror Em)).
Qed.

Lemma walk_src_silent (w : World) (acc : list jsstring) :
  reads (fst (walk_src w acc)) = [] /\
  calls (fst (walk_src w acc)) = [] /\
  writes (fst (walk_src w acc)) = [] /\
  Forall (fun e => is_work e = true) (fst (walk_src w acc)).
Proof. apply listing_is_silent, walk_src_trace_listing. Qed.

(** X7. Whatever happens, a run writes at most one file, the report at
    its fixed path, and writing it is the last thing [main] does. *)
Theorem main_writes_only_the_report_last (w : World) :
  writes (fst (main w)) = [] \/
  exists t data,
    fst (main w) = t ++ [WriteFile report_path data] /\ writes t = [].
Proof.
  destruct (main_cases w)
    as [[_ H] | [(tw & err & _ & Hw & H)
                | [(tw & files & err & _ & Hw & _ & _ & H)
                  | (tw & files & _ & Hw & _ & H)]]];
    rewrite H; cbn [fst].
  - left; reflexivity.
  - left. destruct (walk_src_silent w []) as (_ & _ & Hwr & _).
    rewrite Hw in Hwr. exact Hwr.
  - left. destruct (walk_src_silent w []) as (_ & _ & Hwr & _).
    rewrite Hw in Hwr. cbn [fst] in Hwr. rewrite writes_app, Hwr. reflexivity.
  - right. exists (tw ++ middle w files), (report_of w files).
    rewrite <- app_assoc. split; [reflexivity|].
    destruct (walk_src_silent w []) as (_ & _ & Hwr & _).
    rewrite Hw in Hwr. cbn [fst] in Hwr.
    destruct (middle_effects w files) as (_ & Hm & _).
    rewrite writes_app, Hwr, Hm. reflexivity.
Qed.

(** X8. When the output directory is missing and cannot be created, the
    run aborts right after discovery: no file is read, the service is
    not called, nothing is written, and the process reports the error
    and exits with status 1. *)
Theorem mkdir_failure_aborts_before_any_review
  (w : World) (tw : list event) (files : list jsstring) (err : Error) :
  truthy (GEMINI_API_KEY w) = true ->
  walk_src w [] = (tw, inr files) ->
  reports_exists w = false ->
  mkdir_error w = Some err ->
  exists detail,
    program w
    = (tw ++ [Exists (js "reports"); MkDir (js "reports");
              ConsoleError (js "Falha fatal na execução do ai_review:") detail;
              Exit 1],
       1%Z) /\
    reads (fst (program w)) = [] /\
    calls (fst (program w)) = [] /\
    writes (fst (program w)) = [].
Proof.
  intros Ek Hw Hex Hmk. unfold program.
  rewrite (main_mkdir_throws w Ek Hw Hex Hmk).
  eexists. split.
  - rewrite <- app_assoc. reflexivity.
  - cbn [fst]. destruct (walk_src_silent w []) as (Hr & Hc & Hwr & _).
    rewrite Hw in Hr, Hc, Hwr. cbn [fst] in Hr, Hc, Hwr.
    rewrite !reads_app, !calls_app, !writes_app, Hr, Hc, Hwr.
    repeat split; reflexivity.
Qed.

Lemma mkdir_failure_aborts_before_any_review_witness :
  (truthy (GEMINI_API_KEY world_without_output_dir) = true /\
   walk_src world_without_output_dir []
   = (fst (walk_src world_without_output_dir []),
      inr [js "src/a.js"; js "src/lib/b.js"; js "src/z.js"]) /\
   reports_exists world_without_output_dir = false /\
   mkdir_error world_without_output_dir
   = Some (mkError (js "EACCES: permission denied, mkdir 'reports'"))) /\
  snd (program world_without_output_dir) = 1%Z /\
  reads (fst (program world_without_output_dir)) = [].
Proof.
  assert (Hw : walk_src world_without_output_dir []
               = (fst (walk_src world_without_output_dir []),
                  inr [js "src/a.js"; js "src/lib/b.js"; js "src/z.js"]))
    by (vm_compute; reflexivity).
  split;
    [split; [reflexivity | split; [exact Hw | split; reflexivity]]|].
  destruct (@mkdir_failure_aborts_before_any_review
              world_without_output_dir _ _ _ eq_refl Hw eq_refl eq_refl)
    as (detail & Hp & Hr & _).
  split; [rewrite Hp; reflexivity | exact Hr].
Defined.

Lemma middle_mkdir (w : World) (files : list jsstring) (q : jsstring) :
  In (MkDir q) (middle w files) <-> q = js "reports" /\ reports_exists w = false.
Proof.
  unfold middle. destruct (reviews_effects w files) as (_ & _ & _ & _ & _ & Hd).
  cbn zeta in Hd. split.
  - intros [H | H]; [discriminate|].
    apply in_app_or in H as [H | H]; [|destruct (Hd q H)].
    destruct (reports_exists w); [destruct H|].
    destruct H as [H | []]. inversion H. auto.
  - intros [-> ->]. right. left. reflexivity.
Qed.

Lemma listing_not_mkdir (t : list event) (q : jsstring) :
  Forall (fun e => is_listing e = true) t -> ~ In (MkDir q) t.
Proof.
  intros H Hin. rewrite Forall_forall in H. specialize (H _ Hin). discriminate.
Qed.

(** X9. The output directory is created only when it is found missing:
    [mkdirSync] is called, on [reports], exactly in the runs that have
    the secret, complete discovery and are told by [existsSync] that the
    directory is not there. *)
Theorem mkdir_only_when_reports_is_missing (w : World) (q : jsstring) :
  In (MkDir q) (fst (main w)) <->
  q = js "reports" /\
  truthy (GEMINI_API_KEY w) = true /\
  (exists tw files, walk_src w [] = (tw, inr files)) /\
  reports_exists w = false.
Proof.
  assert (Hlist := walk_src_trace_listing w []).
  destruct (main_cases w)
    as [[Ek H] | [(tw & err & Ek & Hw & H)
                 | [(tw & files & err & Ek & Hw & Hex & _ & H)
                   | (tw & files & Ek & Hw & _ & H)]]];
    rewrite H; cbn [fst]; rewrite ?Hw in Hlist; cbn [fst] in Hlist.
  - split; [intros [] | intros (_ & Ek' & _); congruence].
  - split.
    + intros Hin. destruct (listing_not_mkdir q Hlist Hin).
    + intros (_ & _ & (tw' & files & Hw') & _). congruence.
  - split.
    + intros Hin. apply in_app_or in Hin as [Hin | Hin];
        [destruct (listing_not_mkdir q Hlist Hin)|].
      destruct Hin as [Hin | [Hin | []]]; [discriminate|].
      inversion Hin. repeat split; eauto.
    + intros (-> & _). apply in_or_app. right. right. left. reflexivity.
  - split.
    + intros Hin. apply in_app_or in Hin as [Hin | Hin];
        [destruct (listing_not_mkdir q Hlist Hin)|].
      apply in_app_or in Hin as [Hin | Hin].
      * apply middle_mkdir in Hin as [-> Hex]. repeat split; eauto.
      * destruct Hin as [Hin | []]. discriminate.
    + intros (-> & _ & _ & Hex). apply in_or_app. right.
      apply in_or_app. left. apply middle_mkdir. auto.
Qed.

(** X10. When the report cannot be written, every discovered file has
    been read and reviewed all the same, in order, before the run fails:
    the write is attempted once, last, and the process then reports the
    error and exits with status 1. *)
Theorem write_failure_comes_after_all_reviews
  (w : World) (tw : list event) (files : list jsstring) (err : Error) :
  truthy (GEMINI_API_KEY w) = true ->
  walk_src w [] = (tw, inr files) ->
  reports_exists w = true \/ mkdir_error w = None ->
  write_error w = Some err ->
  exists detail,
    program w
    = (tw ++ middle w files
          ++ [WriteFile report_path (report_of w files);
              ConsoleError (js "Falha fatal na execução do ai_review:") detail;
              Exit 1],
       1%Z) /\
    reads (fst (program w)) = files.
Proof.
  intros Ek Hw Hdir Hwr. unfold program.
  rewrite (main_reaches_write w Ek Hw Hdir), Hwr.
  eexists. split.
  - rewrite <- !app_assoc. reflexivity.
  - cbn [fst]. destruct (walk_src_silent w []) as (Hr & _).
    rewrite Hw in Hr. cbn [fst] in Hr.
    destruct (middle_effects w files) as (Hm & _).
    rewrite !reads_app, Hr, Hm. cbn [reads flat_map app].
    rewrite !app_nil_r. reflexivity.
Qed.

Lemma write_failure_comes_after_all_reviews_witness :
  let w := world_with_full_disk in
  let files := [js "src/a.js"; js "src/lib/b.js"; js "src/z.js"] in
  (truthy (GEMINI_API_KEY w) = true /\
   walk_src w [] = (fst (walk_src w []), inr files) /\
   (reports_exists w = true \/ mkdir_error w = None) /\
   write_error w = Some (mkError (js "ENOSPC: no space left on device, write"))) /\
  snd (program w) = 1%Z /\
  reads (fst (program w)) = files.
Proof.
  intros w files.
  assert (Hw : walk_src w [] = (fst (walk_src w []), inr files))
    by (vm_compute; reflexivity).
  split;
    [split; [reflexivity
            | split; [exact Hw | split; [left; reflexivity | reflexivity]]]|].
  destruct (@write_failure_comes_after_all_reviews
              w _ files _ eq_refl Hw (or_introl eq_refl) eq_refl)
    as (detail & Hp & Hr).
  split; [rewrite Hp; reflexivity | exact Hr].
Defined.

Lemma main_trace_is_work (w : World) :
  Forall (fun e => is_work e = true) (fst (main w)).
Proof.
  destruct (walk_src_silent w []) as (_ & _ & _ & Hk).
  destruct (main_cases w)
    as [[_ H] | [(tw & err & _ & Hw & H)
                | [(tw & files & err & _ & Hw & _ & _ & H)
                  | (tw & files & _ & Hw & _ & H)]]];
    rewrite H; cbn [fst]; rewrite ?Hw in Hk; cbn [fst] in Hk.
  - constructor.
  - exact Hk.
  - apply Forall_app. split; [exact Hk | repeat constructor].
  - apply Forall_app. split; [exact Hk|].
    apply Forall_app. split; [apply middle_effects | repeat constructor].
Qed.

Lemma work_has_no_report (t : list event) :
  Forall (fun e => is_work e = true) t ->
  filter (fun e => negb (is_work e)) t = [].
Proof.
  induction 1 as [|e t He _ IH]; [reflexivity|].
  cbn [filter]. rewrite He. exact IH.
Qed.

(** X11. The error stream and [process.exit] are used by the top-level
    handler alone: [main] itself never prints an error nor exits.  When
    [main] resolves the process adds nothing to its effects and ends
    with status 0; when [main] rejects, and only then, the process
    prints once and exits once, as its last two effects, with status 1,
    printing the message of the error, or the error itself when the
    message is empty. *)
Theorem error_is_reported_once_and_only_on_rejection (w : World) :
  Forall (fun e => is_work e = true) (fst (main w)) /\
  program w
  = match snd (main w) with
    | inr _ => (fst (main w), 0%Z)
    | inl err =>
        (fst (main w)
         ++ [ConsoleError (js "Falha fatal na execução do ai_review:")
               (match message err with
                | [] => inr err
                | _ :: _ => inl (message err)
                end);
             Exit 1],
         1%Z)
    end /\
  filter (fun e => negb (is_work e)) (fst (program w))
  = match snd (main w) with
    | inr _ => []
    | inl err =>
        [ConsoleError (js "Falha fatal na execução do ai_review:")
           (match message err with
            | [] => inr err
            | _ :: _ => inl (message err)
            end);
         Exit 1]
    end.
Proof.
  pose proof (main_trace_is_work w) as Hk.
  split; [exact Hk|].
  unfold program. destruct (main w) as [t [err|[]]]; cbn [fst snd] in *.
  - split; [reflexivity|].
    rewrite filter_app, (work_has_no_report Hk). reflexivity.
  - split; [reflexivity | apply (work_has_no_report Hk)].
Qed.

(** Both ways on the sample inputs: the sample run resolves and the
    process reports nothing; without the secret it reports once. *)
Example report_of_the_error_on_the_samples :
  filter (fun e => negb (is_work e)) (fst (program sample_world)) = []
  /\ snd (program sample_world) = 0%Z
  /\ filter (fun e => negb (is_work e)) (fst (program world_without_secret))
     = [ConsoleError (js "Falha fatal na execução do ai_review:")
          (inl (js "GEMINI_API_KEY não encontrada. Abortando análise."));
        Exit 1]
  /\ snd (program world_without_secret) = 1%Z.
Proof. split; [|split; [|split]]; vm_compute; reflexivity. Qed.

(** X12. A run that gets past the preparation of the output directory
    reads every discovered file exactly once, in the order of discovery,
    and reads nothing else; it sends at most one request per file, each
    to the fixed model. *)
Theorem every_discovered_file_is_read_once_in_order
  (w : World) (tw : list event) (files : list jsstring) :
  truthy (GEMINI_API_KEY w) = true ->
  walk_src w [] = (tw, inr files) ->
  reports_exists w = true \/ mkdir_error w = None ->
  reads (fst (main w)) = files /\
  (length (calls (fst (main w))) <= length files)%nat /\
  Forall (fun mc => fst mc = model_name) (calls (fst (main w))).
Proof.
  intros Ek Hw Hdir. rewrite (main_reaches_write w Ek Hw Hdir). cbn [fst].
  destruct (walk_src_silent w []) as (Hr & Hc & _).
  rewrite Hw in Hr, Hc. cbn [fst] in Hr, Hc.
  destruct (middle_effects w files) as (Hmr & _ & Hmc & Hmm & _).
  rewrite !reads_app, !calls_app, Hr, Hc, Hmr. cbn [reads calls flat_map app].
  rewrite !app_nil_r. auto.
Qed.

Lemma every_discovered_file_is_read_once_in_order_witness :
  let w := sample_world in
  let files := [js "src/a.js"; js "src/lib/b.js"; js "src/z.js"] in
  (truthy (GEMINI_API_KEY w) = true /\
   walk_src w [] = (fst (walk_src w []), inr files) /\
   (reports_exists w = true \/ mkdir_error w = None)) /\
  reads (fst (main w)) = files /\
  (length (calls (fst (main w))) <= length files)%nat.
Proof.
  intros w files.
  assert (Hw : walk_src w [] = (fst (walk_src w []), inr files))
    by (vm_compute; reflexivity).
  split; [split; [reflexivity | split; [exact Hw | right; reflexivity]]|].
  destruct (@every_discovered_file_is_read_once_in_order
              w _ files eq_refl Hw (or_intror eq_refl)) as (Hr & Hc & _).
  split; assumption.
Defined.

(* ================================================================== *)
(** ** Further properties: the summary entries *)

Lemma tableStartMarker_opens : tableStartMarker = PIPE :: js " Problema Principal".
Proof. vm_compute. reflexivity. Qed.

Lemma marker_found (feedback : jsstring) :
  occurs tableStartMarker feedback ->
  exists pre post,
    feedback = pre ++ tableStartMarker ++ post /\
    indexOf feedback tableStartMarker = Z.of_nat (length pre).
Proof.
  intros Ho.
  assert (Hi : indexOf feedback tableStartMarker <> (-1)%Z)
    by (intros E; apply indexOf_absent in E; contradiction).
  destruct (@indexOf_from_found feedback tableStartMarker 0%Z ltac:(lia) Hi)
    as (pre & post & Hs & Hn).
  exists pre, post. split; [exact Hs|]. unfold indexOf. rewrite Hn. lia.
Qed.

Lemma extracted_unfold (p feedback : jsstring) :
  indexOf feedback tableStartMarker <> (-1)%Z ->
  str_match tableRegex
    (substring feedback (indexOf feedback tableStartMarker)) = None ->
  extracted p feedback = [].
Proof.
  intros _ Hm. unfold extracted, record_feedback. rewrite Hm.
  destruct (negb _); reflexivity.
Qed.

(** X13. A summary entry is extracted from a feedback text exactly when
    the marker occurs in it and, from the first occurrence of the marker
    on, some line break is followed by the delimiter.  A table whose
    header is the last line of the feedback gives no entry. *)
Theorem summary_entry_iff_marker_and_delimited_line (p feedback : jsstring) :
  (exists entry, extracted p feedback = [entry]) <->
  occurs tableStartMarker feedback /\
  occurs [LF; PIPE]
         (substring feedback (indexOf feedback tableStartMarker)).
Proof.
  split.
  - intros [entry He].
    assert (Hm : occurs tableStartMarker feedback)
      by (apply (@entry_needs_marker p feedback entry); rewrite He; left;
          reflexivity).
    split; [exact Hm|].
    destruct (last_open (substring feedback (indexOf feedback tableStartMarker)))
      as [t|] eqn:El.
    + destruct (last_open_spec _ El) as (x & u & -> & _). exists x, u.
      reflexivity.
    + exfalso. apply str_match_none in El.
      rewrite (extracted_unfold p) in He; [discriminate | | exact El].
      intros E. apply indexOf_absent in E. contradiction.
  - intros [Hm Hl].
    destruct (marker_found Hm) as (pre & post & -> & Hi).
    rewrite Hi, substring_app in Hl.
    destruct (last_open (tableStartMarker ++ post)) as [t|] eqn:El;
      [| apply last_open_none in El; contradiction].
    destruct (last_open_spec _ El) as (x & u & Hx & -> & Hu).
    apply last_open_none in Hu.
    assert (Hopen : opens_row x = true).
    { rewrite tableStartMarker_opens in Hx. destruct x as [|c x].
      - cbn [app] in Hx. inversion Hx.
      - cbn [app] in Hx. inversion Hx. cbn [opens_row]. apply N.eqb_refl. }
    rewrite Hx in Hi |- *. eexists.
    apply extracted_exact; assumption.
Qed.

(** X14. What an entry holds, in general: when the marker is first
    found after [pre], the entry is the sub-heading of the file and the
    text of the feedback from the marker through the delimiter that
    opens the last delimiter-led line, whatever stands in between, and
    nothing of that last line but its delimiter. *)
Theorem summary_entry_runs_to_the_last_delimited_line (p pre x u : jsstring) :
  indexOf (pre ++ x ++ [LF; PIPE] ++ u) tableStartMarker
  = Z.of_nat (length pre) ->
  opens_row x = true ->
  ~ occurs [LF; PIPE] (PIPE :: u) ->
  extracted p (pre ++ x ++ [LF; PIPE] ++ u)
  = [js "### Resumo do Arquivo: `" ++ p ++ js "`" ++ [LF]
     ++ x ++ [LF; PIPE] ++ [LF]].
Proof.
  intros Hi Hx Hu. rewrite (@extracted_exact p pre x u Hi Hx Hu).
  unfold subheading. rewrite <- !app_assoc. reflexivity.
Qed.

Lemma summary_entry_runs_to_the_last_delimited_line_witness :
  let pre := js "O código é curto e claro." ++ [LF; LF] in
  let x := js "| Problema Principal | Local/Linha Sugerida |" ++ [LF]
           ++ js "|---|---|" in
  let u := js " Nenhum problema grave encontrado | - |" ++ [LF] in
  (indexOf (pre ++ x ++ [LF; PIPE] ++ u) tableStartMarker
   = Z.of_nat (length pre) /\
   opens_row x = true /\
   ~ occurs [LF; PIPE] (PIPE :: u)) /\
  extracted (js "src/a.js") (pre ++ x ++ [LF; PIPE] ++ u)
  = [js "### Resumo do Arquivo: `" ++ js "src/a.js" ++ js "`" ++ [LF]
     ++ x ++ [LF; PIPE] ++ [LF]].
Proof.
  intros pre x u.
  assert (Hi : indexOf (pre ++ x ++ [LF; PIPE] ++ u) tableStartMarker
               = Z.of_nat (length pre)) by (vm_compute; reflexivity).
  assert (Hu : ~ occurs [LF; PIPE] (PIPE :: u))
    by (apply indexOf_absent; vm_compute; reflexivity).
  split; [split; [exact Hi | split; [reflexivity | exact Hu]]|].
  exact (@summary_entry_runs_to_the_last_delimited_line
           (js "src/a.js") pre x u Hi eq_refl Hu).
Defined.

(** X15. The extension test of [walk] is made on the joined path, but
    the directory part never decides it: the path ends with [.js]
    exactly when the name of the entry does, so that a directory whose
    own name ends with [.js] does not make the files in it pass. *)
Theorem extension_test_depends_on_the_entry_name_only (dir f : jsstring) :
  endsWith (path_join dir f) (js ".js") = true <->
  exists stem, f = stem ++ js ".js".
Proof. rewrite endsWith_path_join. apply endsWith_iff. Qed.

(** X16. The second check of the secret, the one in [analyzeFile],
    never fires in a run of [main]: either [main] stops at its own
    check, before any effect, or what the review of a file gives is the
    error of the read when the file cannot be read, and otherwise what
    the service answers to the prompt built from the text of the file,
    its error or its text as it is. *)
Theorem review_outcome_comes_from_file_and_service (w : World) (p : jsstring) :
  main w
  = ([], inl (mkError (js "GEMINI_API_KEY não encontrada. Abortando análise.")))
  \/ outcome w p
     = match file_text w p with
       | inl err => inl err
       | inr code => generate w model_name (trim (prompt_template code))
       end.
Proof.
  destruct (truthy (GEMINI_API_KEY w)) eqn:Ek;
    [right | left; apply main_no_secret; exact Ek].
  unfold outcome. rewrite analyzeFile_cases, Ek.
  destruct (file_text w p) as [e|code]; [reflexivity|]. cbn [snd].
  destruct (generate w model_name _); reflexivity.
Qed.
